(** * mongo-go: a read-only HTTP API over a document database

    Shallow embedding of [cmd/main.go] and [config/config.go].  The
    handlers are translated statement by statement into a small state
    and early-return monad over a [World] that holds the database, the
    log of driver calls and the frame's deferred calls.  The MongoDB
    driver, Fiber and encoding/json are outside the repository; the
    parts of their documented behaviour the handlers rely on are
    modelled in the first sections. *)

From Stdlib Require Import ZArith NArith Ascii String.
From stdpp Require Import base option list gmap strings pretty.

Set Warnings "-register-all".
Local Open Scope N_scope.

(** ** Identifiers: primitive.ObjectID and ObjectIDFromHex *)

(** An ObjectID is a 12-byte value; bytes are numbers below 256. *)
Definition ObjectID := list N.

(** encoding/hex: the value of one hexadecimal digit, either case. *)
Definition hex_val (c : ascii) : option N :=
  let n := N_of_ascii c in
  if (48 <=? n) && (n <=? 57) then Some (n - 48)
  else if (97 <=? n) && (n <=? 102) then Some (n - 87)
  else if (65 <=? n) && (n <=? 70) then Some (n - 55)
  else None.

(** encoding/hex.Decode: two digits per byte, an odd tail is an error. *)
Fixpoint hex_Decode (src : list ascii) : option (list N) :=
  match src with
  | [] => Some []
  | [_] => None
  | a :: b :: rest =>
      match hex_val a, hex_val b, hex_Decode rest with
      | Some hi, Some lo, Some tl => Some (hi * 16 + lo :: tl)
      | _, _, _ => None
      end
  end.

(** primitive.ObjectIDFromHex: [len(s) != 24] is ErrInvalidHex, then the
    string is hex-decoded.  [None] stands for the returned error, whose
    text the handlers never use. *)
Definition ObjectIDFromHex (s : string) : option ObjectID :=
  if (N.of_nat (String.length s) =? 24)
  then hex_Decode (list_ascii_of_string s)
  else None.

(** The identifier format in the words of the specification: exactly 24
    characters, each a hexadecimal digit. *)
Definition is_hex_digit (c : ascii) : bool :=
  let n := N_of_ascii c in
  ((48 <=? n) && (n <=? 57)) || ((97 <=? n) && (n <=? 102))
  || ((65 <=? n) && (n <=? 70)).

Definition valid_hex_id (s : string) : Prop :=
  String.length s = 24%nat ∧ forallb is_hex_digit (list_ascii_of_string s) = true.

(** Lower-case rendering, as ObjectID.Hex does. *)
Definition hex_digit (n : N) : ascii :=
  if n <? 10 then ascii_of_N (48 + n) else ascii_of_N (87 + n).

Fixpoint hex_Encode (bs : list N) : string :=
  match bs with
  | [] => EmptyString
  | b :: r => String (hex_digit (b / 16)) (String (hex_digit (b mod 16)) (hex_Encode r))
  end.

(** ** Documents *)

(** BSON values; numbers are the integer ones.  A stored document is the
    ordered list of its elements. *)
Inductive Value : Type :=
| VNull
| VBool (b : bool)
| VInt (z : Z)
| VString (s : string)
| VObjectID (oid : ObjectID)
| VArray (vs : list Value)
| VDocument (elems : list (string * Value)).

Definition Document : Type := list (string * Value).

(** Decoding into a [bson.M] (a Go map): a later element with the same
    key overwrites an earlier one. *)
Definition decode_M {A} (elems : list (string * A)) : gmap string A :=
  list_to_map (reverse elems).

(** The top-level field names of a document, as the keys of its [bson.M]
    (without repetition, in no meaningful order). *)
Definition field_names (d : Document) : list string :=
  (map_to_list (decode_M d)).*1.

(** ** encoding/json, as far as the handlers use it *)

(** The double quote character. *)
Definition dquote : string := String (ascii_of_N 34) EmptyString.

(** String literals: quote, backslash and control characters are
    escaped, and so are the HTML-sensitive characters, as json.Marshal
    does; other bytes are copied. *)
Definition json_escape_char (c : ascii) : string :=
  let n := N_of_ascii c in
  if n =? 34 then "\" +:+ dquote
  else if n =? 92 then "\\"
  else if n =? 10 then "\n"
  else if n =? 13 then "\r"
  else if n =? 9 then "\t"
  else if (n <? 32) || (n =? 60) || (n =? 62) || (n =? 38)
       then "\u00" +:+ String (hex_digit (n / 16)) (String (hex_digit (n mod 16)) EmptyString)
  else String c EmptyString.

Fixpoint json_escape (s : string) : string :=
  match s with
  | EmptyString => EmptyString
  | String c r => json_escape_char c +:+ json_escape r
  end.

Definition json_string (s : string) : string :=
  dquote +:+ json_escape s +:+ dquote.

Fixpoint join (sep : string) (l : list string) : string :=
  match l with
  | [] => EmptyString
  | [x] => x
  | x :: r => x +:+ sep +:+ join sep r
  end.

Definition json_array (items : list string) : string :=
  "[" +:+ join "," items +:+ "]".

(** Go maps are written with their keys in increasing byte order. *)
Fixpoint insert_by_key {A} (kv : string * A) (l : list (string * A)) : list (string * A) :=
  match l with
  | [] => [kv]
  | kv' :: r =>
      if String.leb kv.1 kv'.1 then kv :: l else kv' :: insert_by_key kv r
  end.

Definition sort_by_key {A} (l : list (string * A)) : list (string * A) :=
  foldr insert_by_key [] l.

Definition sorted_entries {A} (m : gmap string A) : list (string * A) :=
  sort_by_key (map_to_list m).

Definition json_member (kv : string * string) : string :=
  json_string kv.1 +:+ ":" +:+ kv.2.

(** A map whose values are already rendered. *)
Definition json_object (m : gmap string string) : string :=
  "{" +:+ join "," (json_member <$> sorted_entries m) +:+ "}".

Fixpoint json_value (v : Value) : string :=
  match v with
  | VNull => "null"
  | VBool b => if b then "true" else "false"
  | VInt z => pretty z
  | VString s => json_string s
  | VObjectID oid => json_string (hex_Encode oid)
  | VArray vs => json_array (map json_value vs)
  | VDocument elems =>
      json_object (decode_M (map (λ kv, let '(k, v) := kv in (k, json_value v)) elems))
  end.

(** A decoded document, [bson.M]. *)
Definition json_M (d : Document) : string := json_value (VDocument d).

(** A [[]bson.M] value.  [None] is the nil slice, which json.Marshal
    writes as [null]; a slice that is not nil is written as an array. *)
Definition GoSlice (A : Type) : Type := option (list A).

Definition json_slice (s : GoSlice Document) : string :=
  match s with
  | None => "null"
  | Some ds => json_array (map json_M ds)
  end.

(** The [map[string][]string] that listFields builds. *)
Definition json_fields (fields : gmap string (list string)) : string :=
  json_object ((λ ks, json_array (json_string <$> ks)) <$> fields).

(** ** Errors and responses *)

(** [mongo.ErrNoDocuments] is a sentinel the handlers compare with [==];
    every other error of the driver only shows its text. *)
Inductive error : Type :=
| ErrNoDocuments
| ErrDriver (text : string).

Global Instance error_eq_dec : EqDecision error.
Proof. solve_decision. Defined.

Definition Error (e : error) : string :=
  match e with
  | ErrNoDocuments => "mongo: no documents in result"
  | ErrDriver text => text
  end.

Inductive result (A : Type) : Type :=
| Ok (a : A)
| Err (e : error).
Arguments Ok {A} a.
Arguments Err {A} e.

Record Response : Type := { status : nat; body : string }.

(** [c.Status(code).SendString(text)] *)
Definition SendString (code : nat) (text : string) : Response :=
  {| status := code; body := text |}.

(** [c.JSON(v)], with [v] already rendered; the status stays at Fiber's
    default, 200. *)
Definition JSON (rendered : string) : Response :=
  {| status := 200; body := rendered |}.

(** ** The world a handler runs in *)

Inductive DbCall : Type :=
| ListCollectionNames_call
| Find_call (coll : string)
| Next_call (coll : string)
| Decode_call (coll : string)
| All_call (coll : string)
| Close_call (coll : string)
| FindOne_call (coll : string) (oid : ObjectID).

(** [db] is database firstDB: its collections with their documents in
    the order a cursor returns them.  [fault k] is the error with which
    the [k]-th driver call of the execution fails, if it does.  [visit k]
    decides the order in which a [range] over a Go map started after [k]
    driver calls visits the keys (the language leaves it unspecified).
    [calls] logs the driver calls made so far and [defers] holds the
    running handler's deferred calls, the latest first. *)
Record World : Type := {
  db : gmap string (list Document);
  fault : nat → option error;
  visit : nat → list nat;
  calls : list DbCall;
  defers : list DbCall
}.

Definition init_world (d : gmap string (list Document))
    (f : nat → option error) (v : nat → list nat) : World :=
  {| db := d; fault := f; visit := v; calls := []; defers := [] |}.

Definition no_fault : nat → option error := λ _, None.
Definition in_order : nat → list nat := λ _, [].

Definition record_call (c : DbCall) (w : World) : World :=
  {| db := db w; fault := fault w; visit := visit w;
     calls := calls w ++ [c]; defers := defers w |}.

Definition push_defer (c : DbCall) (w : World) : World :=
  {| db := db w; fault := fault w; visit := visit w;
     calls := calls w; defers := c :: defers w |}.

(** A handler body either runs on with a value or has executed a
    [return] with the response it leaves. *)
Definition M (A : Type) : Type := World → (Response + A) * World.

Global Instance M_ret : MRet M := λ A a w, (inr a, w).

Global Instance M_bind : MBind M := λ A B k m w,
  match m w with
  | (inl r, w') => (inl r, w')
  | (inr a, w') => k a w'
  end.

(** Go's [return] inside a handler. *)
Definition Return {A} (r : Response) : M A := λ w, (inl r, w).

(** [defer c] *)
Definition Defer (c : DbCall) : M unit := λ w, (inr tt, push_defer c w).

(** A [for _, x := range l] loop over a slice whose body may return. *)
Fixpoint for_each {A S} (l : list A) (body : S → A → M S) (s : S) : M S :=
  match l with
  | [] => mret s
  | x :: r => s' ← body s x; for_each r body s'
  end.

(** The order of a [range] over a map with keys [keys]: each choice
    picks the next key among those left. *)
Fixpoint range_order {A} (choices : list nat) (keys : list A) : list A :=
  match choices with
  | [] => keys
  | c :: cs =>
      match keys !! (c mod length keys)%nat with
      | Some k => k :: range_order cs (delete (c mod length keys)%nat keys)
      | None => keys
      end
  end.

Definition range_keys {A} (m : gmap string A) : M (list string) := λ w,
  (inr (range_order (visit w (length (calls w))) (map_to_list m).*1), w).

(** ** The driver *)

(** Every driver call is logged and fails when the world says so. *)
Definition driver_call {A} (c : DbCall) (answer : World → result A) : M (result A) := λ w,
  (inr (match fault w (length (calls w)) with
        | Some e => Err e
        | None => answer w
        end), record_call c w).

Record Cursor : Type := {
  cur_coll : string;
  cur_batch : list Document;
  cur_current : option Document
}.

Definition documents (w : World) (coll : string) : list Document :=
  default [] (db w !! coll).

Definition ListCollectionNames : M (result (list string)) :=
  driver_call ListCollectionNames_call (λ w, Ok (map_to_list (db w)).*1).

(** [Collection(coll).Find(ctx, bson.D{})] *)
Definition Find (coll : string) : M (result Cursor) :=
  driver_call (Find_call coll)
    (λ w, Ok {| cur_coll := coll; cur_batch := documents w coll; cur_current := None |}).

(** [cursor.Next(ctx)]: true when there is a next document and no error
    occurred.  An error is kept in the cursor for [cursor.Err()], which
    no handler calls. *)
Definition Next (cursor : Cursor) : M (bool * Cursor) := λ w,
  let w' := record_call (Next_call (cur_coll cursor)) w in
  match fault w (length (calls w)) with
  | Some _ => (inr (false, cursor), w')
  | None =>
      match cur_batch cursor with
      | [] => (inr (false, cursor), w')
      | d :: rest =>
          (inr (true, {| cur_coll := cur_coll cursor; cur_batch := rest;
                         cur_current := Some d |}), w')
      end
  end.

(** [cursor.Decode(&result)] *)
Definition Decode (cursor : Cursor) : M (result Document) :=
  driver_call (Decode_call (cur_coll cursor))
    (λ _, match cur_current cursor with
          | Some d => Ok d
          | None => Err (ErrDriver "EOF")
          end).

(** [cursor.All(ctx, &results)]: the slice is overwritten with the
    remaining documents; a nil slice stays nil when there are none. *)
Definition All (cursor : Cursor) (results : GoSlice Document) : M (result (GoSlice Document)) :=
  driver_call (All_call (cur_coll cursor))
    (λ _, match cur_batch cursor with
          | [] => Ok (match results with None => None | Some _ => Some [] end)
          | ds => Ok (Some ds)
          end).

Definition has_id (oid : ObjectID) (d : Document) : bool :=
  match decode_M d !! "_id" with
  | Some (VObjectID o) => bool_decide (o = oid)
  | _ => false
  end.

(** [Collection(coll).FindOne(ctx, bson.M{"_id": oid}).Decode(&doc)] *)
Definition FindOne_Decode (coll : string) (oid : ObjectID) : M (result Document) :=
  driver_call (FindOne_call coll oid)
    (λ w, match List.find (has_id oid) (documents w coll) with
          | Some d => Ok d
          | None => Err ErrNoDocuments
          end).

(** ** cmd/main.go: the collection handles *)

Definition customerCollection : string := "customers".
Definition productCollection : string := "products".
Definition orderCollection : string := "orders".

(** ** cmd/main.go: the handlers *)

(** [fields[collection] = append(fields[collection], key)] *)
Definition append_field (collection : string)
    (fields : gmap string (list string)) (key : string) : gmap string (list string) :=
  <[collection := default [] (fields !! collection) ++ [key]]> fields.

(** The body of the loop of listFields for one collection. *)
Definition listFields_body (fields : gmap string (list string)) (collection : string)
    : M (gmap string (list string)) :=
  r ← Find collection;
  match r with
  | Err err => Return (SendString 500 (Error err))
  | Ok cursor =>
      _ ← Defer (Close_call (cur_coll cursor));
      '(more, cursor) ← Next cursor;
      if more : bool then
        r ← Decode cursor;
        match r with
        | Err err => Return (SendString 500 (Error err))
        | Ok result =>
            keys ← range_keys (decode_M result);
            mret (foldl (append_field collection) fields keys)
        end
      else mret fields
  end.

Definition listFields : M Response :=
  r ← ListCollectionNames;
  match r with
  | Err err => Return (SendString 500 (Error err))
  | Ok collections =>
      fields ← for_each collections listFields_body ∅;
      mret (JSON (json_fields fields))
  end.

Definition getAllCustomers : M Response :=
  r ← Find customerCollection;
  match r with
  | Err err => Return (SendString 500 (Error err))
  | Ok cursor =>
      _ ← Defer (Close_call (cur_coll cursor));
      let customers : GoSlice Document := None in
      r ← All cursor customers;
      match r with
      | Err err => Return (SendString 500 (Error err))
      | Ok customers => mret (JSON (json_slice customers))
      end
  end.

Definition getCustomerByID (id : string) : M Response :=
  match ObjectIDFromHex id with
  | None => Return (SendString 400 "Invalid ID format")
  | Some objectID =>
      r ← FindOne_Decode customerCollection objectID;
      match r with
      | Err err =>
          if decide (err = ErrNoDocuments)
          then Return (SendString 404 "Customer not found")
          else Return (SendString 500 ("Error finding customer: " +:+ Error err))
      | Ok customer => mret (JSON (json_M customer))
      end
  end.

Definition getAllProducts : M Response :=
  r ← Find productCollection;
  match r with
  | Err err => Return (SendString 500 (Error err))
  | Ok cursor =>
      _ ← Defer (Close_call (cur_coll cursor));
      let products : GoSlice Document := None in
      r ← All cursor products;
      match r with
      | Err err => Return (SendString 500 (Error err))
      | Ok products => mret (JSON (json_slice products))
      end
  end.

Definition getProductByID (id : string) : M Response :=
  match ObjectIDFromHex id with
  | None => Return (SendString 400 "Invalid ID format")
  | Some objectID =>
      r ← FindOne_Decode productCollection objectID;
      match r with
      | Err err =>
          if decide (err = ErrNoDocuments)
          then Return (SendString 404 "Product not found")
          else Return (SendString 500 ("Error finding product: " +:+ Error err))
      | Ok product => mret (JSON (json_M product))
      end
  end.

Definition getAllOrders : M Response :=
  r ← Find orderCollection;
  match r with
  | Err err => Return (SendString 500 (Error err))
  | Ok cursor =>
      _ ← Defer (Close_call (cur_coll cursor));
      let orders : GoSlice Document := None in
      r ← All cursor orders;
      match r with
      | Err err => Return (SendString 500 (Error err))
      | Ok orders => mret (JSON (json_slice orders))
      end
  end.

Definition getOrderByID (id : string) : M Response :=
  match ObjectIDFromHex id with
  | None => Return (SendString 400 "Invalid ID format")
  | Some objectID =>
      r ← FindOne_Decode orderCollection objectID;
      match r with
      | Err err =>
          if decide (err = ErrNoDocuments)
          then Return (SendString 404 "Order not found")
          else Return (SendString 500 ("Error finding order: " +:+ Error err))
      | Ok order => mret (JSON (json_M order))
      end
  end.

(** ** Running a handler *)

(** The deferred calls run when the handler returns, the latest first;
    the error a deferred [cursor.Close] returns is dropped. *)
Definition run_defers (w : World) : World :=
  {| db := db w; fault := fault w; visit := visit w;
     calls := calls w ++ defers w; defers := [] |}.

Definition run_handler (h : M Response) (w : World) : Response * World :=
  match h w with
  | (inl r, w') => (r, run_defers w')
  | (inr r, w') => (r, run_defers w')
  end.

(** The route table of [main]. *)
Inductive Request : Type :=
| GET_fields
| GET_customers
| GET_customer (id : string)
| GET_products
| GET_product (id : string)
| GET_orders
| GET_order (id : string).

Definition route (req : Request) : M Response :=
  match req with
  | GET_fields => listFields
  | GET_customers => getAllCustomers
  | GET_customer id => getCustomerByID id
  | GET_products => getAllProducts
  | GET_product id => getProductByID id
  | GET_orders => getAllOrders
  | GET_order id => getOrderByID id
  end.

Definition serve (req : Request) (w : World) : Response * World :=
  run_handler (route req) w.

(** The three kinds of collection the routes come in. *)
Inductive Entity : Type := Customer | Product | Order.

Definition collection_of (e : Entity) : string :=
  match e with
  | Customer => customerCollection
  | Product => productCollection
  | Order => orderCollection
  end.

Definition getByID (e : Entity) : string → M Response :=
  match e with
  | Customer => getCustomerByID
  | Product => getProductByID
  | Order => getOrderByID
  end.

Definition getAll (e : Entity) : M Response :=
  match e with
  | Customer => getAllCustomers
  | Product => getAllProducts
  | Order => getAllOrders
  end.

(** The capitalised name of the 404 message and the name of the 500
    message. *)
Definition Entity_title (e : Entity) : string :=
  match e with Customer => "Customer" | Product => "Product" | Order => "Order" end.

Definition Entity_name (e : Entity) : string :=
  match e with Customer => "customer" | Product => "product" | Order => "order" end.

(** One Get-by-ID handler with the collection and the two names as
    parameters, to compare the three handlers of the source with. *)
Definition getByID_generic (coll title name : string) (id : string) : M Response :=
  match ObjectIDFromHex id with
  | None => Return (SendString 400 "Invalid ID format")
  | Some objectID =>
      r ← FindOne_Decode coll objectID;
      match r with
      | Err err =>
          if decide (err = ErrNoDocuments)
          then Return (SendString 404 (title +:+ " not found"))
          else Return (SendString 500 ("Error finding " +:+ name +:+ ": " +:+ Error err))
      | Ok doc => mret (JSON (json_M doc))
      end
  end.

(** ** Startup: config/config.go and [main] *)

(** What the process finds when it starts: whether the logger can be
    built, the parsed [.env] file ([None] when godotenv cannot read it),
    the process environment, and the errors of connecting, of the ping
    and of binding the port, if any. *)
Record Startup : Type := {
  zap_ok : bool;
  dotenv_file : option (gmap string string);
  environ : gmap string string;
  connect_error : option string;
  ping_error : option string;
  listen_error : option string
}.

Inductive Event : Type :=
| Ev_Connect (uri : string)
| Ev_Ping
| Ev_Listen (addr : string)
| Ev_Serve
| Ev_Disconnect
| Ev_Sync.

(** How the process ends: the events it went through and its exit
    status.  [log.Fatalf] and zap's [Fatal] end in [os.Exit(1)], which
    runs no deferred call. *)
Record Exit : Type := { events : list Event; exit_status : Z }.

Definition fatal (evs : list Event) : Exit :=
  {| events := evs; exit_status := 1 |}.

(** [godotenv.Load]: the variables of the file are added to the
    environment; a variable that is already set keeps its value. *)
Definition godotenv_Load (s : Startup) : option (gmap string string) :=
  match dotenv_file s with
  | None => None
  | Some file => Some (environ s ∪ file)
  end.

(** [os.Getenv] *)
Definition Getenv (env : gmap string string) (key : string) : string :=
  default "" (env !! key).

(** [config.LoadEnv]: [None] is the fatal exit. *)
Definition LoadEnv (s : Startup) : option (gmap string string) :=
  godotenv_Load s.

Definition GetMongoDB_URL (env : gmap string string) : string :=
  Getenv env "MONGODB_URL".

(** [main] of cmd/main.go.  A handler runs only while [app.Listen]
    serves, which is event [Ev_Serve]. *)
Definition main (s : Startup) : Exit :=
  if negb (zap_ok s) then fatal []
  else
    match LoadEnv s with
    | None => fatal []
    | Some env =>
        let mongoURI := GetMongoDB_URL env in
        if decide (mongoURI = "") then fatal []
        else
          match connect_error s with
          | Some _ => fatal [Ev_Connect mongoURI]
          | None =>
              match ping_error s with
              | Some _ => fatal [Ev_Connect mongoURI; Ev_Ping]
              | None =>
                  match listen_error s with
                  | Some _ => fatal [Ev_Connect mongoURI; Ev_Ping; Ev_Listen ":8090"]
                  | None =>
                      {| events := [Ev_Connect mongoURI; Ev_Ping; Ev_Listen ":8090";
                                    Ev_Serve; Ev_Disconnect; Ev_Sync];
                         exit_status := 0 |}
                  end
              end
          end
    end.

(** The [main] of the second program of the repository, which only
    connects and pings. *)
Definition main_ping (s : Startup) : Exit :=
  if negb (zap_ok s) then fatal []
  else
    match LoadEnv s with
    | None => fatal []
    | Some env =>
        let mongoURI := GetMongoDB_URL env in
        if decide (mongoURI = "") then fatal []
        else
          match connect_error s with
          | Some _ => fatal [Ev_Connect mongoURI]
          | None =>
              match ping_error s with
              | Some _ => fatal [Ev_Connect mongoURI; Ev_Ping]
              | None =>
                  {| events := [Ev_Connect mongoURI; Ev_Ping; Ev_Disconnect; Ev_Sync];
                     exit_status := 0 |}
              end
          end
    end.

Definition binds_port (e : Event) : bool :=
  match e with Ev_Listen _ => true | _ => false end.

Definition runs_handlers (e : Event) : bool :=
  match e with Ev_Serve => true | _ => false end.

(** The request that lists, and the one that looks up, an entity. *)
Definition list_request (e : Entity) : Request :=
  match e with
  | Customer => GET_customers
  | Product => GET_products
  | Order => GET_orders
  end.

Definition get_request (e : Entity) (id : string) : Request :=
  match e with
  | Customer => GET_customer id
  | Product => GET_product id
  | Order => GET_order id
  end.

(** ** Predicates on computations *)

(** A computation that leaves the database as it found it. *)
Definition read_only {A} (m : M A) : Prop :=
  ∀ w, db (m w).2 = db w.

(** Two worlds of one execution: they differ in the call log and in the
    deferred calls only. *)
Definition same_schedule (w w' : World) : Prop :=
  db w' = db w ∧ fault w' = fault w ∧ visit w' = visit w.

(** A world in which the driver answers every call. *)
Definition no_faults (w : World) : Prop := ∀ n, fault w n = None.

(** The data model: every stored document has its identifier field. *)
Definition has_identifier (doc : Document) : bool :=
  bool_decide (is_Some (decode_M doc !! "_id")).

Definition identified (d : gmap string (list Document)) : Prop :=
  map_Forall (λ _ ds, forallb has_identifier ds = true) d.

(** The names listFields samples for a collection: those of the first
    document its cursor returns, none when there is no document. *)
Definition first_fields (w : World) (coll : string) : list string :=
  match documents w coll with
  | [] => []
  | d :: _ => field_names d
  end.

(** An entry of the listing agrees with the sampled names: no entry when
    nothing was sampled, otherwise the names in some order. *)
Definition listed (sample : list string) (entry : option (list string)) : Prop :=
  match entry with
  | None => sample = []
  | Some ks => ks ≠ [] ∧ ks ≡ₚ sample
  end.

(** Two executions against the same database, with the same answers of
    the driver; only the order of map iteration may differ. *)
Definition same_data (w1 w2 : World) : Prop :=
  db w1 = db w2 ∧ fault w1 = fault w2 ∧ calls w1 = calls w2 ∧ defers w1 = defers w2.

(** Two computations that, run in such a pair of worlds, make the same
    calls and either return with the same response or go on with values
    related by [R]. *)
Definition lockstep {A} (R : A → A → Prop) (m1 m2 : M A) : Prop :=
  ∀ w1 w2, same_data w1 w2 →
    match m1 w1, m2 w2 with
    | (inl r1, w1'), (inl r2, w2') => r1 = r2 ∧ same_data w1' w2'
    | (inr a1, w1'), (inr a2, w2') => R a1 a2 ∧ same_data w1' w2'
    | _, _ => False
    end.

(** Two listings with the same collections and, for each, the same names
    up to their order. *)
Definition same_listing (f1 f2 : gmap string (list string)) : Prop :=
  ∀ c, match f1 !! c, f2 !! c with
       | Some k1, Some k2 => k1 ≡ₚ k2
       | None, None => True
       | _, _ => False
       end.

(** Two responses that are identical, or are both a 200 with listings
    that differ in the order of names only. *)
Definition same_up_to_order (r1 r2 : Response) : Prop :=
  r1 = r2
  ∨ ∃ f1 f2, r1 = JSON (json_fields f1) ∧ r2 = JSON (json_fields f2) ∧ same_listing f1 f2.

(** A computation that returns early only on an error and right at it:
    the response is a 500 with the text of the error of the last call
    made, so nothing was called after the call that failed. *)
Definition stops_at_error {A} (m : M A) : Prop :=
  ∀ w, fault (m w).2 = fault w
       ∧ (length (calls w) ≤ length (calls (m w).2))%nat
       ∧ ∀ r, (m w).1 = inl r →
           (length (calls w) < length (calls (m w).2))%nat
           ∧ ∃ err, fault w (pred (length (calls (m w).2))) = Some err
                    ∧ r = SendString 500 (Error err).


(** The collections whose cursor was opened by the calls [new], the
    first of which is call number [k]: those of a [Find] that did not
    fail. *)
Fixpoint opened (f : nat → option error) (k : nat) (new : list DbCall) : list string :=
  match new with
  | [] => []
  | Find_call c :: r =>
      match f k with
      | None => c :: opened f (S k) r
      | Some _ => opened f (S k) r
      end
  | _ :: r => opened f (S k) r
  end.

Definition is_Close (c : DbCall) : bool :=
  match c with Close_call _ => true | _ => false end.

(** A computation that defers the close of every cursor it opens, and
    closes none itself. *)
Definition tracks_cursors {A} (m : M A) : Prop :=
  ∀ w, ∃ new,
    calls (m w).2 = calls w ++ new
    ∧ fault (m w).2 = fault w
    ∧ forallb (λ c, negb (is_Close c)) new = true
    ∧ defers (m w).2
      = (Close_call <$> reverse (opened (fault w) (length (calls w)) new)) ++ defers w.

(** The first document of every collection that has one. *)
Definition first_documents (d : gmap string (list Document)) : gmap string Document :=
  omap head d.


(** A startup in which nothing fails, with the URL [uri] in the file. *)
Definition good_startup (uri : string) : Startup :=
  {| zap_ok := true; dotenv_file := Some {[ "MONGODB_URL" := uri ]}; environ := ∅;
     connect_error := None; ping_error := None; listen_error := None |}.

(** The same startup with a database that does not answer the ping. *)
Definition unreachable_startup (uri : string) : Startup :=
  {| zap_ok := true; dotenv_file := Some {[ "MONGODB_URL" := uri ]}; environ := ∅;
     connect_error := None; ping_error := Some "server selection timeout";
     listen_error := None |}.

Definition is_Next (c : DbCall) : bool :=
  match c with Next_call _ => true | _ => false end.

(** A computation that, when it runs to its end, has let no failure go
    by except those of [cursor.Next]. *)
Definition notices_errors {A} (m : M A) : Prop :=
  ∀ w, ∃ new,
    calls (m w).2 = calls w ++ new
    ∧ fault (m w).2 = fault w
    ∧ ∀ a, (m w).1 = inr a →
        ∀ i c, new !! i = Some c → is_Some (fault w (length (calls w) + i)) →
          is_Next c = true.

(** ** Sample data *)

(** The customer of the end-to-end scenario. *)
Definition oid_alice : ObjectID := [80; 127; 31; 119; 188; 248; 108; 215; 153; 67; 144; 17].

Definition alice : Document :=
  [("_id", VObjectID oid_alice); ("name", VString "Alice")].

(** One customer, no product, no collection of orders. *)
Definition sample_db : gmap string (list Document) :=
  {[ "customers" := [alice]; "products" := [] ]}.

(** A second customer, with a field the first one lacks. *)
Definition bob : Document :=
  [("_id", VObjectID [80; 127; 31; 119; 188; 248; 108; 215; 153; 67; 144; 18]);
   ("name", VString "Bob"); ("email", VString "bob@example.org")].

(** Two customers, and orders that exist but are empty. *)
Definition sample_db2 : gmap string (list Document) :=
  {[ "customers" := [alice; bob]; "orders" := [] ]}.

(** The [k]-th driver call fails with [e], every other call is answered. *)
Definition fault_at (k : nat) (e : error) : nat → option error :=
  λ n, if decide (n = k) then Some e else None.

(** Every [range] starts at the second key of the map. *)
Definition from_second : nat → list nat := λ _, [1%nat].

(** * Properties *)

(** ** Identifier parsing *)

Lemma hex_val_is_hex_digit (c : ascii) :
  is_Some (hex_val c) ↔ is_hex_digit c = true.
Proof.
  unfold hex_val, is_hex_digit.
  destruct ((48 <=? N_of_ascii c) && (N_of_ascii c <=? 57)); simpl;
    [split; [done | eauto] |].
  destruct ((97 <=? N_of_ascii c) && (N_of_ascii c <=? 102)); simpl;
    [split; [done | eauto] |].
  destruct ((65 <=? N_of_ascii c) && (N_of_ascii c <=? 70)); simpl;
    [split; [done | eauto] |].
  split; [intros [? ?]; done | done].
Qed.

(** Lists are taken two elements at a time, as [hex_Decode] does. *)
Lemma list_pair_ind {A} (P : list A → Prop) :
  P [] → (∀ a, P [a]) → (∀ a b l, P l → P (a :: b :: l)) → ∀ l, P l.
Proof.
  intros H0 H1 H2.
  fix IH 1. intros [|a [|b l]]; [apply H0 | apply H1 | apply H2, IH].
Qed.

Lemma hex_Decode_is_Some (l : list ascii) :
  is_Some (hex_Decode l) ↔ Nat.even (length l) = true ∧ forallb is_hex_digit l = true.
Proof.
  induction l as [|a|a b l IH] using list_pair_ind.
  - simpl. split; eauto.
  - simpl. split; [intros [? ?]; done | intros [? _]; done].
  - change (hex_Decode (a :: b :: l)) with
      (match hex_val a, hex_val b, hex_Decode l with
       | Some hi, Some lo, Some tl => Some (hi * 16 + lo :: tl)
       | _, _, _ => None
       end).
    change (Nat.even (length (a :: b :: l))) with (Nat.even (length l)).
    change (forallb is_hex_digit (a :: b :: l))
      with (is_hex_digit a && (is_hex_digit b && forallb is_hex_digit l)).
    rewrite !andb_true_iff, <- !hex_val_is_hex_digit.
    destruct IH as [IH1 IH2]. split.
    + destruct (hex_val a), (hex_val b), (hex_Decode l);
        try (intros [? ?]; done).
      intros _. destruct IH1 as [? ?]; eauto.
    + intros (Hev & [x ->] & [y ->] & Hall).
      destruct IH2 as [tl ->]; eauto.
Qed.

Lemma length_list_ascii_of_string (s : string) :
  length (list_ascii_of_string s) = String.length s.
Proof. induction s as [|c s IH]; simpl; congruence. Qed.

(** The driver accepts exactly the identifiers the specification calls
    valid. *)
Lemma ObjectIDFromHex_valid (s : string) :
  is_Some (ObjectIDFromHex s) ↔ valid_hex_id s.
Proof.
  unfold ObjectIDFromHex, valid_hex_id.
  destruct (N.eqb_spec (N.of_nat (String.length s)) 24) as [Hlen|Hlen].
  - assert (String.length s = 24%nat) as Hl by lia.
    rewrite hex_Decode_is_Some, length_list_ascii_of_string, Hl. simpl. tauto.
  - split; [intros [? ?]; done | intros [Hl _]; rewrite Hl in Hlen; done].
Qed.

Lemma ObjectIDFromHex_invalid (s : string) :
  ¬ valid_hex_id s → ObjectIDFromHex s = None.
Proof.
  rewrite <- ObjectIDFromHex_valid. destruct (ObjectIDFromHex s); [|done].
  intros []; eauto.
Qed.

(** ** The Get-by-ID handlers *)

(** C10.  The three Get-by-ID handlers of the source are one function of
    the collection handle and of the entity's two names: each of them is
    the generic handler at its own collection, its capitalised name (the
    404 message) and its plain name (the 500 message). *)
Theorem getByID_same_function (e : Entity) :
  getByID e = getByID_generic (collection_of e) (Entity_title e) (Entity_name e).
Proof. destruct e; reflexivity. Qed.

Lemma getByID_unfold (e : Entity) (id : string) :
  getByID e id = getByID_generic (collection_of e) (Entity_title e) (Entity_name e) id.
Proof. destruct e; reflexivity. Qed.

(** What the lookup of a parsed identifier leaves in the world: one
    logged call and nothing else. *)
Lemma FindOne_Decode_world (coll : string) (oid : ObjectID) (w : World) :
  (FindOne_Decode coll oid w).2 = record_call (FindOne_call coll oid) w.
Proof. reflexivity. Qed.


(** The routes of an entity lead to its two handlers. *)
Lemma serve_get_request (e : Entity) (id : string) (w : World) :
  serve (get_request e id) w = run_handler (getByID e id) w.
Proof. by destruct e. Qed.

Lemma serve_list_request (e : Entity) (w : World) :
  serve (list_request e) w = run_handler (getAll e) w.
Proof. by destruct e. Qed.

(** C1.  A Get-by-ID handler given a path parameter that is not a valid
    24-hex-character identifier answers 400 "Invalid ID format" and
    leaves the world as it found it: no driver call is logged, so the
    database is never reached. *)
Theorem getByID_invalid_id (e : Entity) (id : string) (w : World) :
  ¬ valid_hex_id id →
  (run_handler (getByID e id) w).1 = SendString 400 "Invalid ID format"
  ∧ (getByID e id w).2 = w
  ∧ calls (run_handler (getByID e id) w).2 = calls w ++ defers w.
Proof.
  intros Hid. apply ObjectIDFromHex_invalid in Hid.
  rewrite getByID_unfold. unfold run_handler, getByID_generic.
  rewrite Hid. simpl. done.
Qed.

Lemma getByID_invalid_id_witness :
  ¬ valid_hex_id "not-an-id"
  ∧ (run_handler (getByID Customer "not-an-id") (init_world ∅ no_fault in_order)).1
    = SendString 400 "Invalid ID format"
  ∧ (getByID Customer "not-an-id" (init_world ∅ no_fault in_order)).2
    = init_world ∅ no_fault in_order
  ∧ calls (run_handler (getByID Customer "not-an-id") (init_world ∅ no_fault in_order)).2
    = [] ++ [].
Proof.
  assert (¬ valid_hex_id "not-an-id") as H.
  { intros [H _]. simpl in H. lia. }
  split; [exact H|].
  exact (getByID_invalid_id Customer "not-an-id" (init_world ∅ no_fault in_order) H).
Defined.

(** C4.  A Get-by-ID handler given a valid identifier that no document
    of its collection carries, the lookup itself being answered by the
    database, responds 404 with the message of its entity: "Customer not
    found", "Product not found" or "Order not found". *)
Theorem getByID_absent_404 (e : Entity) (id : string) (oid : ObjectID) (w : World) :
  valid_hex_id id →
  ObjectIDFromHex id = Some oid →
  List.find (has_id oid) (documents w (collection_of e)) = None →
  fault w (length (calls w)) = None →
  (run_handler (getByID e id) w).1 = SendString 404 (Entity_title e +:+ " not found")
  ∧ (Entity_title Customer +:+ " not found" = "Customer not found"
     ∧ Entity_title Product +:+ " not found" = "Product not found"
     ∧ Entity_title Order +:+ " not found" = "Order not found").
Proof.
  intros _ Hid Habsent Hfault. split; [|done].
  rewrite getByID_unfold. unfold run_handler, getByID_generic.
  rewrite Hid. unfold FindOne_Decode, driver_call, mbind, M_bind.
  rewrite Hfault, Habsent. simpl. done.
Qed.

(** C6.  When the lookup of a parsed identifier fails with an error that
    is not the not-found sentinel, the handler responds 500 and the body
    is "Error finding <entity>: " followed by the error's own text. *)
Theorem getByID_error_500 (e : Entity) (id : string) (oid : ObjectID) (w : World)
    (err : error) :
  ObjectIDFromHex id = Some oid →
  (FindOne_Decode (collection_of e) oid w).1 = inr (Err err) →
  err ≠ ErrNoDocuments →
  (run_handler (getByID e id) w).1
  = SendString 500 ("Error finding " +:+ Entity_name e +:+ ": " +:+ Error err).
Proof.
  intros Hid Hlookup Hne.
  rewrite getByID_unfold. unfold run_handler, getByID_generic.
  rewrite Hid. unfold mbind, M_bind.
  destruct (FindOne_Decode (collection_of e) oid w) as [r w'] eqn:Hrun.
  simpl in Hlookup. subst r.
  destruct (decide (err = ErrNoDocuments)); [done|]. reflexivity.
Qed.

Lemma getByID_absent_404_witness :
  valid_hex_id "507f1f77bcf86cd799439099"
  ∧ (run_handler (getByID Customer "507f1f77bcf86cd799439099")
       (init_world sample_db no_fault in_order)).1
    = SendString 404 "Customer not found".
Proof.
  assert (valid_hex_id "507f1f77bcf86cd799439099") as H by (split; reflexivity).
  split; [exact H|].
  exact (proj1 (getByID_absent_404 Customer "507f1f77bcf86cd799439099"
                  [80; 127; 31; 119; 188; 248; 108; 215; 153; 67; 144; 153]
                  (init_world sample_db no_fault in_order)
                  H eq_refl eq_refl eq_refl)).
Defined.

Lemma getByID_error_500_witness :
  (run_handler (getByID Order "507f1f77bcf86cd799439011")
     (init_world sample_db (fault_at 0 (ErrDriver "connection reset")) in_order)).1
  = SendString 500 "Error finding order: connection reset".
Proof.
  apply (getByID_error_500 Order "507f1f77bcf86cd799439011" oid_alice
           (init_world sample_db (fault_at 0 (ErrDriver "connection reset")) in_order)
           (ErrDriver "connection reset")).
  - reflexivity.
  - reflexivity.
  - discriminate.
Defined.

(** ** Startup *)

(** The value [main] reads for the URL: "" when the variable is set
    neither in the environment nor by the file, or is set to "". *)
Lemma GetMongoDB_URL_unset (env : gmap string string) :
  env !! "MONGODB_URL" = None ∨ env !! "MONGODB_URL" = Some "" →
  GetMongoDB_URL env = "".
Proof. unfold GetMongoDB_URL, Getenv. intros [-> | ->]; reflexivity. Qed.

(** C9.  When the configuration file cannot be read, or the URL variable
    is unset or empty once the file is loaded, [main] ends fatally: the
    exit status is 1, the port is never bound and no handler runs (the
    process has not even tried to connect). *)
Theorem main_fatal_without_config (s : Startup) :
  dotenv_file s = None
  ∨ (∃ env, LoadEnv s = Some env
            ∧ (env !! "MONGODB_URL" = None ∨ env !! "MONGODB_URL" = Some "")) →
  exit_status (main s) = 1%Z
  ∧ exit_status (main s) ≠ 0%Z
  ∧ existsb binds_port (events (main s)) = false
  ∧ existsb runs_handlers (events (main s)) = false
  ∧ events (main s) = [].
Proof.
  intros H.
  assert (main s = fatal []) as ->; [|by repeat split].
  unfold main. destruct (zap_ok s); simpl; [|done].
  destruct H as [H | (env & Henv & H)].
  - unfold LoadEnv, godotenv_Load. by rewrite H.
  - rewrite Henv. apply GetMongoDB_URL_unset in H. rewrite H.
    by destruct (decide _).
Qed.

Lemma main_fatal_without_config_witness :
  exit_status (main {| zap_ok := true; dotenv_file := Some ∅; environ := ∅;
                       connect_error := None; ping_error := None;
                       listen_error := None |}) = 1%Z
  ∧ exit_status (main {| zap_ok := true; dotenv_file := None;
                         environ := {[ "MONGODB_URL" := "mongodb://localhost" ]};
                         connect_error := None; ping_error := None;
                         listen_error := None |}) = 1%Z.
Proof.
  split.
  - apply (main_fatal_without_config
             {| zap_ok := true; dotenv_file := Some ∅; environ := ∅;
                connect_error := None; ping_error := None; listen_error := None |}).
    right. exists ∅. split; [reflexivity | left; reflexivity].
  - apply (main_fatal_without_config
             {| zap_ok := true; dotenv_file := None;
                environ := {[ "MONGODB_URL" := "mongodb://localhost" ]};
                connect_error := None; ping_error := None; listen_error := None |}).
    left. reflexivity.
Defined.

(** The second program stops at the same two places. *)
Lemma main_ping_fatal_without_config (s : Startup) :
  dotenv_file s = None
  ∨ (∃ env, LoadEnv s = Some env
            ∧ (env !! "MONGODB_URL" = None ∨ env !! "MONGODB_URL" = Some "")) →
  main_ping s = fatal [].
Proof.
  intros H. unfold main_ping. destruct (zap_ok s); simpl; [|done].
  destruct H as [H | (env & Henv & H)].
  - unfold LoadEnv, godotenv_Load. by rewrite H.
  - rewrite Henv. apply GetMongoDB_URL_unset in H. rewrite H.
    by destruct (decide _).
Qed.

(** With the file read and the URL set, the server of the sample
    environment does bind port 8090 and serve. *)
Example main_serves :
  events (main {| zap_ok := true; dotenv_file := Some {[ "MONGODB_URL" := "mongodb://db" ]};
                  environ := ∅; connect_error := None; ping_error := None;
                  listen_error := None |})
  = [Ev_Connect "mongodb://db"; Ev_Ping; Ev_Listen ":8090"; Ev_Serve; Ev_Disconnect; Ev_Sync].
Proof. vm_compute. reflexivity. Qed.

(** ** No handler writes to the database *)

Lemma read_only_ret {A} (a : A) : read_only (mret a : M A).
Proof. intros w. reflexivity. Qed.

Lemma read_only_Return {A} (r : Response) : read_only (Return r : M A).
Proof. intros w. reflexivity. Qed.

Lemma read_only_bind {A B} (m : M A) (k : A → M B) :
  read_only m → (∀ a, read_only (k a)) → read_only (m ≫= k).
Proof.
  intros Hm Hk w. unfold mbind, M_bind.
  specialize (Hm w). destruct (m w) as [[r|a] w']; simpl in *; [done|].
  by rewrite Hk.
Qed.

Lemma read_only_Defer (c : DbCall) : read_only (Defer c).
Proof. intros w. reflexivity. Qed.

Lemma read_only_driver_call {A} (c : DbCall) (answer : World → result A) :
  read_only (driver_call c answer).
Proof. intros w. reflexivity. Qed.

Lemma read_only_Next (cursor : Cursor) : read_only (Next cursor).
Proof.
  intros w. unfold Next.
  destruct (fault w _); [done|]. by destruct (cur_batch cursor).
Qed.

Lemma read_only_range_keys {A} (m : gmap string A) : read_only (range_keys m).
Proof. intros w. reflexivity. Qed.

Lemma read_only_for_each {A S} (l : list A) (body : S → A → M S) (s : S) :
  (∀ s x, read_only (body s x)) → read_only (for_each l body s).
Proof.
  intros Hbody. revert s.
  induction l as [|x l IH]; intros s; simpl.
  - apply read_only_ret.
  - apply read_only_bind; [apply Hbody | intros s'; apply IH].
Qed.

Create HintDb frame discriminated.
#[local] Hint Resolve read_only_ret read_only_Return read_only_Defer
  read_only_driver_call read_only_Next read_only_range_keys : frame.

(** Walks through a handler body: binds, branches on results, leaves. *)
Ltac frame_step :=
  match goal with
  | |- read_only (_ ≫= _) => apply read_only_bind; [| intros ?]
  | |- read_only (match ?x with _ => _ end) => destruct x
  | |- read_only (let _ := _ in _) => cbv zeta
  | |- read_only _ => solve [auto with frame]
  end.

Ltac frame := repeat frame_step.

Lemma read_only_listFields_body (fields : gmap string (list string)) (collection : string) :
  read_only (listFields_body fields collection).
Proof. unfold listFields_body, Find, Decode. frame. Qed.

Lemma read_only_listFields : read_only listFields.
Proof.
  unfold listFields, ListCollectionNames. frame.
  apply read_only_for_each, read_only_listFields_body.
Qed.

Lemma read_only_getAll (e : Entity) : read_only (getAll e).
Proof.
  destruct e; unfold getAll, getAllCustomers, getAllProducts, getAllOrders, Find, All;
    frame.
Qed.

Lemma read_only_getByID (e : Entity) (id : string) : read_only (getByID e id).
Proof.
  rewrite getByID_unfold. unfold getByID_generic, FindOne_Decode. frame.
Qed.

Lemma read_only_route (req : Request) : read_only (route req).
Proof.
  destruct req; simpl.
  - apply read_only_listFields.
  - apply (read_only_getAll Customer).
  - apply (read_only_getByID Customer).
  - apply (read_only_getAll Product).
  - apply (read_only_getByID Product).
  - apply (read_only_getAll Order).
  - apply (read_only_getByID Order).
Qed.

(** C8.  Whatever the request and the world, serving the request leaves
    every collection of the database with the documents it had: no
    handler creates, changes or deletes a document. *)
Theorem serve_leaves_database (req : Request) (w : World) :
  db (serve req w).2 = db w.
Proof.
  unfold serve, run_handler.
  pose proof (read_only_route req w) as H.
  destruct (route req w) as [[r|r] w']; simpl in *; exact H.
Qed.

(** ** The list handlers *)

Lemma getAll_run (e : Entity) (w : World) :
  fault w (length (calls w)) = None →
  fault w (S (length (calls w))) = None →
  (run_handler (getAll e) w).1
  = JSON (json_slice (match documents w (collection_of e) with
                      | [] => None
                      | ds => Some ds
                      end)).
Proof.
  intros H0 H1.
  assert (length (calls (record_call (Find_call (collection_of e)) w))
          = S (length (calls w))) as Hlen.
  { simpl. rewrite length_app. simpl. lia. }
  destruct e; unfold run_handler, getAll, getAllCustomers, getAllProducts, getAllOrders,
    Find, All, Defer, driver_call, mbind, M_bind; simpl in *;
    rewrite H0; simpl; rewrite Hlen, H1;
    by destruct (documents w _).
Qed.


Lemma getAll_empty_null (e : Entity) (w : World) :
  fault w (length (calls w)) = None →
  fault w (S (length (calls w))) = None →
  documents w (collection_of e) = [] →
  (run_handler (getAll e) w).1 = JSON "null".
Proof. intros H0 H1 Hdocs. rewrite getAll_run, Hdocs; done. Qed.

(** C2, at a collection without documents.  The find and the
    materialisation succeed and the status is 200, but the slice was
    declared nil and stays nil, so the body is [null] where the
    specification has the empty array. *)
Theorem getAll_empty_collection_null (e : Entity) :
  (serve (list_request e) (init_world ∅ no_fault in_order)).1
  = {| status := 200; body := "null" |}
  ∧ json_array [] = "[]"
  ∧ body (serve (list_request e) (init_world ∅ no_fault in_order)).1 ≠ json_array [].
Proof. destruct e; vm_compute; repeat split; discriminate. Qed.

Example getAllCustomers_sample :
  (serve GET_customers (init_world sample_db no_fault in_order)).1
  = JSON ("[" +:+ json_M alice +:+ "]").
Proof. vm_compute. reflexivity. Qed.

(** ** listFields and errors *)

(** A loop whose body returns at its first element never reaches the
    others. *)
Lemma for_each_return {A S} (x : A) (l : list A) (body : S → A → M S) (s : S)
    (w w' : World) (r : Response) :
  body s x w = (inl r, w') → for_each (x :: l) body s w = (inl r, w').
Proof. intros H. simpl. unfold mbind, M_bind. by rewrite H. Qed.

(** An error of the enumeration ends the request with 500 and the
    error's text; that call is the only one made. *)
Lemma listFields_enumeration_error (w : World) (err : error) :
  fault w (length (calls w)) = Some err →
  listFields w = (inl (SendString 500 (Error err)), record_call ListCollectionNames_call w).
Proof.
  intros H. unfold listFields, ListCollectionNames, driver_call, mbind, M_bind.
  by rewrite H.
Qed.

(** An error of [Find] ends the loop body, and with it the request, with
    500 and the error's text; nothing is called after it. *)
Lemma listFields_body_Find_error (fields : gmap string (list string)) (collection : string)
    (w : World) (err : error) :
  fault w (length (calls w)) = Some err →
  listFields_body fields collection w
  = (inl (SendString 500 (Error err)), record_call (Find_call collection) w).
Proof.
  intros H. unfold listFields_body, Find, driver_call, mbind, M_bind.
  by rewrite H.
Qed.

(** So does an error of [Decode]. *)
Lemma listFields_body_Decode_error (fields : gmap string (list string)) (collection : string)
    (w : World) (err : error) (d : Document) (ds : list Document) :
  fault w (length (calls w)) = None →
  fault w (S (length (calls w))) = None →
  fault w (S (S (length (calls w)))) = Some err →
  documents w collection = d :: ds →
  (listFields_body fields collection w).1 = inl (SendString 500 (Error err))
  ∧ calls (listFields_body fields collection w).2
    = calls w ++ [Find_call collection; Next_call collection; Decode_call collection].
Proof.
  intros H0 H1 H2 Hdocs.
  unfold listFields_body, Find, Next, Decode, Defer, driver_call, mbind, M_bind.
  simpl. rewrite H0. simpl. rewrite !length_app. simpl.
  replace (length (calls w) + 1)%nat with (S (length (calls w))) by lia.
  rewrite H1, Hdocs. simpl. rewrite !length_app. simpl.
  replace (length (calls w) + 1 + 1)%nat with (S (S (length (calls w)))) by lia.
  rewrite H2. simpl. by rewrite <- !app_assoc.
Qed.

Lemma stops_at_error_ret {A} (a : A) : stops_at_error (mret a : M A).
Proof. intros w. by repeat split. Qed.

Lemma stops_at_error_bind {A B} (m : M A) (k : A → M B) :
  stops_at_error m → (∀ a, stops_at_error (k a)) → stops_at_error (m ≫= k).
Proof.
  intros Hm Hk w. unfold mbind, M_bind.
  destruct (Hm w) as (Hf & Hlen & Hret).
  destruct (m w) as [[r|a] w1]; simpl in *.
  { split; [done|]. split; [done|]. intros r0 [= <-]. by apply Hret. }
  destruct (Hk a w1) as (Hf' & Hlen' & Hret').
  split; [congruence|]. split; [lia|].
  intros r Hr. destruct (Hret' r Hr) as (Hlt & err & Herr & ->).
  split; [lia|]. exists err. by rewrite <- Hf.
Qed.

(** A driver call whose error is checked in the way of the handlers. *)
Lemma stops_at_error_checked {A B} (c : DbCall) (answer : World → A) (k : A → M B) :
  (∀ a, stops_at_error (k a)) →
  stops_at_error (r ← driver_call c (λ w, Ok (answer w));
                  match r with
                  | Err err => Return (SendString 500 (Error err))
                  | Ok a => k a
                  end).
Proof.
  intros Hk w. unfold driver_call, mbind, M_bind.
  assert (length (calls w ++ [c]) = S (length (calls w))) as Hlen.
  { rewrite length_app. simpl. lia. }
  destruct (fault w (length (calls w))) as [err|] eqn:Hfault.
  - unfold Return. simpl. rewrite Hlen.
    split; [done|]. split; [lia|].
    intros r [= <-]. split; [lia|]. by exists err.
  - destruct (Hk (answer w) (record_call c w)) as (Hf & Hlen' & Hret).
    simpl in Hlen', Hret. rewrite Hlen in Hlen', Hret.
    split; [done|]. split; [lia|].
    intros r Hr. destruct (Hret r Hr) as (Hlt & err & Herr & ->).
    split; [lia|]. by exists err.
Qed.

Lemma stops_at_error_listFields_body (fields : gmap string (list string))
    (collection : string) :
  stops_at_error (listFields_body fields collection).
Proof.
  unfold listFields_body, Find. apply stops_at_error_checked. intros cursor.
  intros w. unfold Defer, Next, Decode, range_keys, driver_call, mbind, M_bind.
  simpl.
  destruct (fault w (length (calls w))) as [err0|]; simpl.
  { split; [done|]. split; [rewrite length_app; lia | done]. }
  destruct (cur_batch cursor) as [|d ds]; simpl.
  { split; [done|]. split; [rewrite length_app; lia | done]. }
  destruct (fault w (length (calls w ++ [Next_call (cur_coll cursor)]))) as [err|] eqn:Hfault;
    simpl.
  - split; [done|]. split; [rewrite !length_app; simpl; lia|].
    intros r [= <-]. split; [rewrite !length_app; simpl; lia|].
    exists err. split; [|done]. rewrite <- Hfault. f_equal.
    rewrite !length_app. simpl. lia.
  - split; [done|]. split; [rewrite !length_app; simpl; lia | done].
Qed.

Lemma stops_at_error_for_each {A S} (l : list A) (body : S → A → M S) :
  (∀ s x, stops_at_error (body s x)) → ∀ s, stops_at_error (for_each l body s).
Proof.
  intros Hbody. induction l as [|x l IH]; intros s; simpl.
  - apply stops_at_error_ret.
  - apply stops_at_error_bind; [apply Hbody | apply IH].
Qed.

(** Whenever listFields returns before its end, it does so with status
    500 and the text of the error of the last call it made: the first
    error it notices ends the request, and no collection is queried
    after it. *)
Lemma stops_at_error_listFields : stops_at_error listFields.
Proof.
  unfold listFields, ListCollectionNames.
  apply (stops_at_error_checked ListCollectionNames_call (λ w, (map_to_list (db w)).*1)).
  intros collections. apply stops_at_error_bind.
  - apply stops_at_error_for_each, stops_at_error_listFields_body.
  - intros fields. apply stops_at_error_ret.
Qed.

(** C7, at an error of [cursor.Next].  The first cursor operation on the
    only collection with a document fails; listFields does not look at
    [cursor.Err()], takes the collection for empty, goes on to the next
    collection and answers 200 with a listing that lacks "customers". *)
Theorem listFields_Next_error_unnoticed :
  fault_at 2 (ErrDriver "connection reset") 2 = Some (ErrDriver "connection reset")
  ∧ (serve GET_fields (init_world sample_db (fault_at 2 (ErrDriver "connection reset")) in_order)).1
    = {| status := 200; body := "{}" |}
  ∧ calls (serve GET_fields
             (init_world sample_db (fault_at 2 (ErrDriver "connection reset")) in_order)).2
    = [ListCollectionNames_call; Find_call "customers"; Next_call "customers";
       Find_call "products"; Next_call "products";
       Close_call "products"; Close_call "customers"].
Proof. vm_compute. repeat split. Qed.

(** ** listFields when the driver answers *)

Lemma range_order_Permutation {A} (choices : list nat) (keys : list A) :
  range_order choices keys ≡ₚ keys.
Proof.
  revert keys. induction choices as [|c cs IH]; intros keys; simpl; [done|].
  destruct (keys !! (c mod length keys)%nat) as [k|] eqn:Hk; [|done].
  rewrite IH. symmetry. by apply delete_Permutation.
Qed.

Lemma foldl_append_field_lookup (c c' : string) (ks : list string)
    (fields : gmap string (list string)) :
  foldl (append_field c) fields ks !! c'
  = if decide (c = c')
    then match ks with
         | [] => fields !! c
         | _ => Some (default [] (fields !! c) ++ ks)
         end
    else fields !! c'.
Proof.
  revert fields. induction ks as [|k ks IH]; intros fields; simpl.
  - by destruct (decide (c = c')) as [->|].
  - rewrite IH. unfold append_field at 1 2 3.
    destruct (decide (c = c')) as [->|Hne].
    + rewrite lookup_insert_eq. simpl.
      destruct ks; [done|]. by rewrite <- app_assoc.
    + by rewrite lookup_insert_ne.
Qed.

Lemma same_schedule_refl (w : World) : same_schedule w w.
Proof. done. Qed.

Lemma same_schedule_trans (w1 w2 w3 : World) :
  same_schedule w1 w2 → same_schedule w2 w3 → same_schedule w1 w3.
Proof. intros (? & ? & ?) (? & ? & ?). repeat split; congruence. Qed.

Lemma same_schedule_no_faults (w w' : World) :
  same_schedule w w' → no_faults w → no_faults w'.
Proof. intros (_ & Hf & _) H n. rewrite Hf. apply H. Qed.

Lemma same_schedule_first_fields (w w' : World) (c : string) :
  same_schedule w w' → first_fields w' c = first_fields w c.
Proof. intros (Hdb & _). unfold first_fields, documents. by rewrite Hdb. Qed.

(** One turn of the loop: the sampled names of the collection, in the
    order of the [range], are appended to the collection's entry. *)
Lemma listFields_body_run (fields : gmap string (list string)) (c : string) (w : World) :
  no_faults w →
  ∃ ks w', listFields_body fields c w = (inr (foldl (append_field c) fields ks), w')
           ∧ ks ≡ₚ first_fields w c
           ∧ same_schedule w w'.
Proof.
  intros Hnf.
  unfold listFields_body, Find, Next, Decode, Defer, range_keys, driver_call,
    mbind, M_bind, first_fields.
  simpl. rewrite !Hnf. simpl. rewrite Hnf.
  destruct (documents w c) as [|d ds]; simpl.
  - exists []. eexists. split; [reflexivity|]. by repeat split.
  - rewrite Hnf. simpl.
    eexists _, _. split; [reflexivity|]. split; [|by repeat split].
    apply range_order_Permutation.
Qed.

(** The whole loop over collections that are pairwise different and
    have no entry yet. *)
Lemma listFields_loop (cs : list string) :
  ∀ (fields : gmap string (list string)) (w : World),
    no_faults w →
    ∃ fields' w',
      for_each cs listFields_body fields w = (inr fields', w')
      ∧ same_schedule w w'
      ∧ (NoDup cs → (∀ c, c ∈ cs → fields !! c = None) →
         ∀ c, (c ∈ cs → listed (first_fields w c) (fields' !! c))
              ∧ (c ∉ cs → fields' !! c = fields !! c)).
Proof.
  induction cs as [|x cs IH]; intros fields w Hnf.
  - exists fields, w. simpl. split; [done|]. split; [apply same_schedule_refl|].
    intros _ _ c. split; [|done].
    intros Hc. by apply not_elem_of_nil in Hc.
  - destruct (listFields_body_run fields x w Hnf) as (ks & w1 & Hrun & Hks & Hs1).
    destruct (IH (foldl (append_field x) fields ks) w1
                (same_schedule_no_faults _ _ Hs1 Hnf)) as (fields' & w' & Hloop & Hs2 & Hlist).
    exists fields', w'. split; [|split].
    + simpl. unfold mbind, M_bind. by rewrite Hrun.
    + by eapply same_schedule_trans.
    + intros Hnodup Hfresh c.
      apply NoDup_cons in Hnodup as [Hx Hnodup].
      assert (∀ c', c' ∈ cs → foldl (append_field x) fields ks !! c' = None) as Hfresh1.
      { intros c' Hc'. rewrite foldl_append_field_lookup.
        destruct (decide (x = c')) as [->|]; [done|].
        apply Hfresh. by right. }
      specialize (Hlist Hnodup Hfresh1).
      split.
      * intros Hc. apply elem_of_cons in Hc as [->|Hc].
        -- destruct (Hlist x) as [_ ->]; [|done].
           rewrite foldl_append_field_lookup, decide_True by done.
           rewrite (Hfresh x) by left. unfold listed.
           destruct ks as [|k ks]; simpl.
           ++ symmetry. by apply Permutation_nil_l.
           ++ done.
        -- rewrite <- (same_schedule_first_fields w w1 c Hs1). by apply Hlist.
      * intros Hc. apply not_elem_of_cons in Hc as [Hne Hc].
        destruct (Hlist c) as [_ ->]; [|done].
        rewrite foldl_append_field_lookup. by rewrite decide_False.
Qed.

(** The listing of a run of listFields in which the driver answers. *)
Lemma listFields_run (w : World) :
  no_faults w →
  ∃ fields, (run_handler listFields w).1 = JSON (json_fields fields)
            ∧ ∀ c, listed (first_fields w c) (fields !! c).
Proof.
  intros Hnf.
  pose (w0 := record_call ListCollectionNames_call w).
  assert (same_schedule w w0) as Hs0 by done.
  destruct (listFields_loop (map_to_list (db w)).*1 ∅ w0
              (same_schedule_no_faults _ _ Hs0 Hnf)) as (fields & w' & Hloop & _ & Hlist).
  exists fields. split.
  - unfold run_handler, listFields, ListCollectionNames, driver_call, mbind, M_bind.
    rewrite Hnf. fold w0. by rewrite Hloop.
  - intros c.
    specialize (Hlist (NoDup_fst_map_to_list _) (λ c _, lookup_empty c) c).
    rewrite <- (same_schedule_first_fields w w0 c Hs0).
    destruct (decide (c ∈ (map_to_list (db w)).*1)) as [Hc|Hc]; [by apply Hlist|].
    destruct Hlist as [_ ->]; [|done]. rewrite lookup_empty. simpl.
    unfold first_fields, documents.
    destruct (db w0 !! c) as [ds|] eqn:Hdb; [|done].
    exfalso. apply Hc. apply list_elem_of_fmap. exists (c, ds).
    split; [done|]. by apply elem_of_map_to_list.
Qed.

Lemma has_identifier_field_names (d : Document) :
  has_identifier d = true → field_names d ≠ [].
Proof.
  unfold has_identifier, field_names. intros Hid Hnil.
  apply bool_decide_eq_true in Hid. apply fmap_nil_inv in Hnil.
  apply map_to_list_empty_iff in Hnil. rewrite Hnil, lookup_empty in Hid.
  by destruct Hid.
Qed.

(** C3.  In every database state whose documents have their identifier,
    and with the driver answering, listFields responds 200 with the JSON
    of a mapping in which every collection holding a document is mapped
    to the top-level field names of the first document its cursor
    returns (each name once, in the order of the map iteration), and in
    which a collection without documents, like a name that is no
    collection, has no entry. *)
Theorem listFields_listing (w : World) :
  no_faults w →
  identified (db w) →
  ∃ fields : gmap string (list string),
    (run_handler listFields w).1 = {| status := 200; body := json_fields fields |}
    ∧ ∀ c, match db w !! c with
           | Some (d :: _) => ∃ ks, fields !! c = Some ks ∧ ks ≡ₚ field_names d
           | _ => fields !! c = None
           end.
Proof.
  intros Hnf Hid.
  destruct (listFields_run w Hnf) as (fields & Hresp & Hlisted).
  exists fields. split; [exact Hresp|].
  intros c. specialize (Hlisted c).
  unfold first_fields, documents, listed in Hlisted.
  destruct (db w !! c) as [[|d ds]|] eqn:Hdb; simpl in Hlisted.
  - destruct (fields !! c) as [ks|]; [|done].
    destruct Hlisted as [Hne Hperm]. by apply Permutation_nil_r in Hperm.
  - destruct (fields !! c) as [ks|]; [exists ks; by destruct Hlisted|].
    apply Hid in Hdb. simpl in Hdb. apply andb_true_iff in Hdb as [Hd _].
    by apply has_identifier_field_names in Hd.
  - destruct (fields !! c) as [ks|]; [|done].
    destruct Hlisted as [Hne Hperm]. by apply Permutation_nil_r in Hperm.
Qed.

Lemma listFields_listing_witness :
  ∃ fields : gmap string (list string),
    (run_handler listFields (init_world sample_db no_fault from_second)).1
    = {| status := 200; body := json_fields fields |}
    ∧ ∀ c, match sample_db !! c with
           | Some (d :: _) => ∃ ks, fields !! c = Some ks ∧ ks ≡ₚ field_names d
           | _ => fields !! c = None
           end.
Proof.
  apply (listFields_listing (init_world sample_db no_fault from_second)).
  - intros n. reflexivity.
  - apply (bool_decide_unpack _). vm_compute. exact I.
Defined.

Example listFields_sample :
  (serve GET_fields (init_world sample_db no_fault in_order)).1
  = JSON ("{" +:+ json_string "customers" +:+ ":["
          +:+ json_string "_id" +:+ "," +:+ json_string "name" +:+ "]}").
Proof. vm_compute. reflexivity. Qed.

(** ** Repeating a request *)

Lemma same_data_record_call (c : DbCall) (w1 w2 : World) :
  same_data w1 w2 → same_data (record_call c w1) (record_call c w2).
Proof. intros (? & ? & ? & ?). repeat split; simpl; congruence. Qed.

Lemma same_data_push_defer (c : DbCall) (w1 w2 : World) :
  same_data w1 w2 → same_data (push_defer c w1) (push_defer c w2).
Proof. intros (? & ? & ? & ?). repeat split; simpl; congruence. Qed.

Lemma same_data_run_defers (w1 w2 : World) :
  same_data w1 w2 → same_data (run_defers w1) (run_defers w2).
Proof. intros (? & ? & ? & ?). repeat split; simpl; congruence. Qed.

Lemma lockstep_ret {A} (R : A → A → Prop) (a1 a2 : A) :
  R a1 a2 → lockstep R (mret a1) (mret a2).
Proof. intros HR w1 w2 Hw. by split. Qed.

Lemma lockstep_Return {A} (R : A → A → Prop) (r : Response) :
  lockstep R (Return r) (Return r).
Proof. intros w1 w2 Hw. by split. Qed.

Lemma lockstep_bind {A B} (R : A → A → Prop) (S : B → B → Prop)
    (m1 m2 : M A) (k1 k2 : A → M B) :
  lockstep R m1 m2 →
  (∀ a1 a2, R a1 a2 → lockstep S (k1 a1) (k2 a2)) →
  lockstep S (m1 ≫= k1) (m2 ≫= k2).
Proof.
  intros Hm Hk w1 w2 Hw. unfold mbind, M_bind.
  specialize (Hm w1 w2 Hw).
  destruct (m1 w1) as [[r1|a1] w1'], (m2 w2) as [[r2|a2] w2']; try done.
  destruct Hm as [HR Hw']. by apply Hk.
Qed.

Lemma lockstep_bind_eq {A B} (S : B → B → Prop) (m : M A) (k1 k2 : A → M B) :
  lockstep eq m m →
  (∀ a, lockstep S (k1 a) (k2 a)) →
  lockstep S (m ≫= k1) (m ≫= k2).
Proof.
  intros Hm Hk. apply (lockstep_bind eq); [done|]. intros a ? <-. apply Hk.
Qed.

Lemma lockstep_Defer (c : DbCall) : lockstep eq (Defer c) (Defer c).
Proof. intros w1 w2 Hw. split; [done|]. by apply same_data_push_defer. Qed.

Lemma lockstep_driver_call {A} (c : DbCall) (answer : World → result A) :
  (∀ w1 w2, same_data w1 w2 → answer w1 = answer w2) →
  lockstep eq (driver_call c answer) (driver_call c answer).
Proof.
  intros Hans w1 w2 Hw. unfold driver_call.
  split; [|by apply same_data_record_call].
  rewrite (Hans w1 w2 Hw). destruct Hw as (_ & -> & -> & _). done.
Qed.

Lemma lockstep_Next (cursor : Cursor) : lockstep eq (Next cursor) (Next cursor).
Proof.
  intros w1 w2 Hw. unfold Next.
  pose proof (same_data_record_call (Next_call (cur_coll cursor)) _ _ Hw) as Hw'.
  destruct Hw as (_ & -> & -> & _).
  destruct (fault w2 _); [done|]. by destruct (cur_batch cursor).
Qed.

Lemma lockstep_range_keys {A} (m : gmap string A) :
  lockstep (≡ₚ) (range_keys m) (range_keys m).
Proof.
  intros w1 w2 Hw. unfold range_keys. split; [|done].
  by rewrite !range_order_Permutation.
Qed.

Lemma lockstep_for_each {A S} (R : S → S → Prop) (l : list A) (body : S → A → M S) :
  (∀ s1 s2 x, R s1 s2 → lockstep R (body s1 x) (body s2 x)) →
  ∀ s1 s2, R s1 s2 → lockstep R (for_each l body s1) (for_each l body s2).
Proof.
  intros Hbody. induction l as [|x l IH]; intros s1 s2 HR; simpl.
  - by apply lockstep_ret.
  - apply (lockstep_bind R); [by apply Hbody | apply IH].
Qed.

Lemma documents_same_data (w1 w2 : World) (coll : string) :
  same_data w1 w2 → documents w1 coll = documents w2 coll.
Proof. intros (Hdb & _). unfold documents. by rewrite Hdb. Qed.

Lemma lockstep_Find (coll : string) : lockstep eq (Find coll) (Find coll).
Proof.
  apply lockstep_driver_call. intros w1 w2 Hw.
  by rewrite (documents_same_data w1 w2 coll Hw).
Qed.

Lemma lockstep_FindOne_Decode (coll : string) (oid : ObjectID) :
  lockstep eq (FindOne_Decode coll oid) (FindOne_Decode coll oid).
Proof.
  apply lockstep_driver_call. intros w1 w2 Hw.
  by rewrite (documents_same_data w1 w2 coll Hw).
Qed.

Lemma lockstep_ListCollectionNames :
  lockstep eq ListCollectionNames ListCollectionNames.
Proof.
  apply lockstep_driver_call. intros w1 w2 (Hdb & _). by rewrite Hdb.
Qed.

Lemma lockstep_Decode (cursor : Cursor) : lockstep eq (Decode cursor) (Decode cursor).
Proof. by apply lockstep_driver_call. Qed.

Lemma lockstep_All (cursor : Cursor) (results : GoSlice Document) :
  lockstep eq (All cursor results) (All cursor results).
Proof. by apply lockstep_driver_call. Qed.

Create HintDb lockstep discriminated.
#[local] Hint Resolve lockstep_Return lockstep_Defer lockstep_Next lockstep_Find
  lockstep_FindOne_Decode lockstep_ListCollectionNames lockstep_Decode lockstep_All
  lockstep_range_keys : lockstep.

(** Walks through two copies of one handler body at once. *)
Ltac lockstep_step :=
  match goal with
  | |- lockstep _ (?m ≫= _) (?m ≫= _) =>
      apply lockstep_bind_eq; [solve [auto with lockstep] | intros ?]
  | |- lockstep _ (match ?x with _ => _ end) (match ?x with _ => _ end) => destruct x
  | |- lockstep _ (Return _) (Return _) => apply lockstep_Return
  | |- lockstep eq (mret _) (mret _) => by apply lockstep_ret
  end.

Ltac lockstep := repeat lockstep_step.

Lemma lockstep_getAll (e : Entity) : lockstep eq (getAll e) (getAll e).
Proof.
  destruct e; unfold getAll, getAllCustomers, getAllProducts, getAllOrders;
    cbv zeta; lockstep.
Qed.

Lemma lockstep_getByID (e : Entity) (id : string) :
  lockstep eq (getByID e id) (getByID e id).
Proof. rewrite getByID_unfold. unfold getByID_generic. lockstep. Qed.

Lemma same_listing_empty : same_listing ∅ ∅.
Proof. intros c. by rewrite !lookup_empty. Qed.

Lemma same_listing_foldl (c : string) (f1 f2 : gmap string (list string))
    (k1 k2 : list string) :
  same_listing f1 f2 → k1 ≡ₚ k2 →
  same_listing (foldl (append_field c) f1 k1) (foldl (append_field c) f2 k2).
Proof.
  intros Hf Hk c'. rewrite !foldl_append_field_lookup.
  destruct (decide (c = c')) as [_|_]; [|apply Hf].
  specialize (Hf c).
  destruct k1 as [|x1 k1], k2 as [|x2 k2].
  - done.
  - by apply Permutation_nil_l in Hk.
  - by apply Permutation_nil_r in Hk.
  - destruct (f1 !! c) as [d1|], (f2 !! c) as [d2|]; try done; simpl.
    by rewrite Hf, Hk.
Qed.

Lemma lockstep_listFields_body (f1 f2 : gmap string (list string)) (c : string) :
  same_listing f1 f2 →
  lockstep same_listing (listFields_body f1 c) (listFields_body f2 c).
Proof.
  intros Hf. unfold listFields_body.
  apply lockstep_bind_eq; [apply lockstep_Find|]. intros [cursor|err];
    [|apply lockstep_Return].
  apply lockstep_bind_eq; [apply lockstep_Defer|]. intros _.
  apply lockstep_bind_eq; [apply lockstep_Next|]. intros [[|] cursor'].
  - apply lockstep_bind_eq; [apply lockstep_Decode|]. intros [result|err];
      [|apply lockstep_Return].
    apply (lockstep_bind (≡ₚ)); [apply lockstep_range_keys|].
    intros k1 k2 Hk. apply lockstep_ret. by apply same_listing_foldl.
  - by apply lockstep_ret.
Qed.

Lemma lockstep_listFields :
  lockstep (λ r1 r2, ∃ f1 f2, r1 = JSON (json_fields f1) ∧ r2 = JSON (json_fields f2)
                              ∧ same_listing f1 f2)
    listFields listFields.
Proof.
  unfold listFields.
  apply lockstep_bind_eq; [apply lockstep_ListCollectionNames|].
  intros [collections|err]; [|apply lockstep_Return].
  apply (lockstep_bind same_listing).
  - apply lockstep_for_each; [|apply same_listing_empty].
    intros s1 s2 x. apply lockstep_listFields_body.
  - intros f1 f2 Hf. apply lockstep_ret. eauto.
Qed.

Lemma run_handler_lockstep (R : Response → Response → Prop) (h : M Response)
    (w1 w2 : World) :
  lockstep R h h → same_data w1 w2 →
  (run_handler h w1).1 = (run_handler h w2).1
  ∨ R (run_handler h w1).1 (run_handler h w2).1.
Proof.
  intros Hh Hw. specialize (Hh w1 w2 Hw). unfold run_handler.
  destruct (h w1) as [[r1|r1] w1'], (h w2) as [[r2|r2] w2']; simpl; try done.
  - left. by destruct Hh.
  - right. by destruct Hh.
Qed.

Lemma lockstep_route (req : Request) :
  req ≠ GET_fields → lockstep eq (route req) (route req).
Proof.
  intros Hreq. destruct req; simpl; [done| | | | | |].
  - apply (lockstep_getAll Customer).
  - apply (lockstep_getByID Customer).
  - apply (lockstep_getAll Product).
  - apply (lockstep_getByID Product).
  - apply (lockstep_getAll Order).
  - apply (lockstep_getByID Order).
Qed.

(** C5, as the code has it.  Two executions of the same request against
    the same database, with the same answers of the driver, give the
    same response, byte for byte, for the six list and Get-by-ID
    endpoints.  For /api/fields they give the same response or two 200
    responses whose listings have the same collections and the same
    names, the names of a collection possibly in another order. *)
Theorem repeated_request (req : Request) (w1 w2 : World) :
  same_data w1 w2 →
  (req ≠ GET_fields → (serve req w1).1 = (serve req w2).1)
  ∧ same_up_to_order (serve req w1).1 (serve req w2).1.
Proof.
  intros Hw. split.
  - intros Hreq.
    destruct (run_handler_lockstep eq (route req) w1 w2 (lockstep_route req Hreq) Hw);
      done.
  - assert (req = GET_fields ∨ req ≠ GET_fields) as [->|Hreq]
      by (destruct req; (by left) || (by right)).
    + destruct (run_handler_lockstep _ listFields w1 w2 lockstep_listFields Hw) as [H|H].
      * by left.
      * by right.
    + left.
      destruct (run_handler_lockstep eq (route req) w1 w2 (lockstep_route req Hreq) Hw);
        done.
Qed.

Lemma repeated_request_witness :
  (serve (GET_customer "507f1f77bcf86cd799439011")
     (init_world sample_db no_fault in_order)).1
  = (serve (GET_customer "507f1f77bcf86cd799439011")
       (init_world sample_db no_fault from_second)).1.
Proof.
  apply (repeated_request (GET_customer "507f1f77bcf86cd799439011")
           (init_world sample_db no_fault in_order)
           (init_world sample_db no_fault from_second)).
  - repeat split.
  - discriminate.
Defined.

(** C5 as stated fails for /api/fields: the same request against the
    same database, answered without any error, gives two different
    bodies when the map of the sampled document is visited in two
    different orders. *)
Lemma repeated_GET_fields_differ :
  same_data (init_world sample_db no_fault in_order)
            (init_world sample_db no_fault from_second)
  ∧ body (serve GET_fields (init_world sample_db no_fault in_order)).1
    ≠ body (serve GET_fields (init_world sample_db no_fault from_second)).1.
Proof. split; [repeat split|]. vm_compute. discriminate. Qed.

(** ** The end-to-end scenario of the specification *)

Example scenario_found :
  (serve (GET_customer "507f1f77bcf86cd799439011") (init_world sample_db no_fault in_order)).1
  = {| status := 200;
       body := "{" +:+ json_string "_id" +:+ ":" +:+ json_string "507f1f77bcf86cd799439011"
               +:+ "," +:+ json_string "name" +:+ ":" +:+ json_string "Alice" +:+ "}" |}.
Proof. vm_compute. reflexivity. Qed.

Example scenario_not_found :
  (serve (GET_customer "507f1f77bcf86cd799439099") (init_world sample_db no_fault in_order)).1
  = {| status := 404; body := "Customer not found" |}.
Proof. vm_compute. reflexivity. Qed.

Example scenario_invalid :
  (serve (GET_customer "not-an-id") (init_world sample_db no_fault in_order)).1
  = {| status := 400; body := "Invalid ID format" |}.
Proof. vm_compute. reflexivity. Qed.

(** * Further properties of the handlers *)

(** ** Identifiers written and read back *)






(** ** Get-by-ID: the document found *)





(** X3.  Whatever the database answers, a Get-by-ID handler given an
    identifier that parses makes one driver call and no other: the
    lookup of that identifier in its own collection.  It opens no cursor
    and defers nothing. *)
Theorem getByID_single_lookup (e : Entity) (id : string) (oid : ObjectID) (w : World) :
  ObjectIDFromHex id = Some oid →
  calls (getByID e id w).2 = calls w ++ [FindOne_call (collection_of e) oid]
  ∧ defers (getByID e id w).2 = defers w.
Proof.
  intros Hid. rewrite getByID_unfold. unfold getByID_generic.
  rewrite Hid. unfold FindOne_Decode, driver_call, mbind, M_bind.
  destruct (fault w (length (calls w))) as [err|].
  - by destruct (decide (err = ErrNoDocuments)).
  - by destruct (List.find _ _).
Qed.

Lemma getByID_single_lookup_witness :
  calls (getByID Product "507f1f77bcf86cd799439011"
           (init_world sample_db no_fault in_order)).2
  = [] ++ [FindOne_call (collection_of Product) oid_alice].
Proof.
  apply (getByID_single_lookup Product "507f1f77bcf86cd799439011" oid_alice
           (init_world sample_db no_fault in_order)).
  reflexivity.
Defined.

(** ** Cursors are closed *)

Lemma opened_app (f : nat → option error) (k : nat) (l1 l2 : list DbCall) :
  opened f k (l1 ++ l2) = opened f k l1 ++ opened f (k + length l1) l2.
Proof.
  revert k. induction l1 as [|c l1 IH]; intros k; simpl.
  - by rewrite Nat.add_0_r.
  - replace (k + S (length l1))%nat with (S k + length l1)%nat by lia.
    destruct c; rewrite ?IH; try done. by destruct (f k).
Qed.

Lemma tracks_cursors_ret {A} (a : A) : tracks_cursors (mret a : M A).
Proof. intros w. exists []. simpl. by rewrite app_nil_r. Qed.

Lemma tracks_cursors_Return {A} (r : Response) : tracks_cursors (Return r : M A).
Proof. intros w. exists []. simpl. by rewrite app_nil_r. Qed.

Lemma tracks_cursors_bind {A B} (m : M A) (k : A → M B) :
  tracks_cursors m → (∀ a, tracks_cursors (k a)) → tracks_cursors (m ≫= k).
Proof.
  intros Hm Hk w. unfold mbind, M_bind.
  destruct (Hm w) as (new1 & Hc1 & Hf1 & Hn1 & Hd1).
  destruct (m w) as [[r|a] w1]; simpl in *; [by exists new1|].
  destruct (Hk a w1) as (new2 & Hc2 & Hf2 & Hn2 & Hd2).
  exists (new1 ++ new2). split; [|split; [|split]].
  - by rewrite Hc2, Hc1, app_assoc.
  - congruence.
  - by rewrite forallb_app, Hn1, Hn2.
  - rewrite Hd2, Hd1, Hf1, Hc1, opened_app, reverse_app, fmap_app, length_app.
    by rewrite app_assoc.
Qed.

(** A driver call that opens no cursor and closes none. *)
Lemma tracks_cursors_driver_call {A} (c : DbCall) (answer : World → result A) :
  (∀ coll, c ≠ Find_call coll) → is_Close c = false →
  tracks_cursors (driver_call c answer).
Proof.
  intros Hc Hclose w. exists [c]. unfold driver_call. simpl.
  rewrite Hclose. repeat split.
  destruct c; try done. by destruct (Hc coll).
Qed.

Lemma tracks_cursors_Next (cursor : Cursor) : tracks_cursors (Next cursor).
Proof.
  intros w. exists [Next_call (cur_coll cursor)]. unfold Next.
  destruct (fault w _); [done|]. by destruct (cur_batch cursor).
Qed.

Lemma tracks_cursors_range_keys {A} (m : gmap string A) : tracks_cursors (range_keys m).
Proof. intros w. exists []. simpl. by rewrite app_nil_r. Qed.

(** The way every handler opens a cursor: [Find], the check of its
    error, and the deferred [Close]. *)
Lemma tracks_cursors_Find {B} (coll : string) (k : Cursor → M B) :
  (∀ cursor, tracks_cursors (k cursor)) →
  tracks_cursors (r ← Find coll;
                  match r with
                  | Err err => Return (SendString 500 (Error err))
                  | Ok cursor => _ ← Defer (Close_call (cur_coll cursor)); k cursor
                  end).
Proof.
  intros Hk w. unfold Find, Defer, driver_call, mbind, M_bind.
  destruct (fault w (length (calls w))) as [err|] eqn:Hfault; simpl.
  - exists [Find_call coll]. simpl. by rewrite Hfault.
  - match goal with |- context [k ?cur ?w1] =>
      destruct (Hk cur w1) as (new & Hc & Hf & Hn & Hd)
    end.
    simpl in *. exists (Find_call coll :: new). split; [|split; [|split]].
    + by rewrite Hc, <- app_assoc.
    + done.
    + done.
    + rewrite Hd. simpl. rewrite Hfault, reverse_cons, fmap_app, length_app.
      simpl. replace (length (calls w) + 1)%nat with (S (length (calls w))) by lia.
      by rewrite <- app_assoc.
Qed.

Lemma tracks_cursors_for_each {A S} (l : list A) (body : S → A → M S) :
  (∀ s x, tracks_cursors (body s x)) → ∀ s, tracks_cursors (for_each l body s).
Proof.
  intros Hbody. induction l as [|x l IH]; intros s; simpl.
  - apply tracks_cursors_ret.
  - apply tracks_cursors_bind; [apply Hbody | apply IH].
Qed.

Create HintDb cursors discriminated.
#[local] Hint Resolve tracks_cursors_ret tracks_cursors_Return tracks_cursors_Next
  tracks_cursors_range_keys : cursors.
#[local] Hint Extern 1 (tracks_cursors (driver_call _ _)) =>
  apply tracks_cursors_driver_call; [intros ?; discriminate | reflexivity] : cursors.

Ltac cursors_step :=
  match goal with
  | |- tracks_cursors (Find _ ≫= _) => apply tracks_cursors_Find; intros ?
  | |- tracks_cursors (_ ≫= _) => apply tracks_cursors_bind; [| intros ?]
  | |- tracks_cursors (match ?x with _ => _ end) => destruct x
  | |- tracks_cursors (let _ := _ in _) => cbv zeta
  | |- tracks_cursors _ => solve [auto with cursors]
  end.

Ltac cursors := repeat cursors_step.

Lemma tracks_cursors_listFields_body (fields : gmap string (list string))
    (collection : string) :
  tracks_cursors (listFields_body fields collection).
Proof. unfold listFields_body, Decode. cursors. Qed.

Lemma tracks_cursors_listFields : tracks_cursors listFields.
Proof.
  unfold listFields, ListCollectionNames. cursors.
  apply tracks_cursors_for_each, tracks_cursors_listFields_body.
Qed.

Lemma tracks_cursors_getAll (e : Entity) : tracks_cursors (getAll e).
Proof.
  destruct e; unfold getAll, getAllCustomers, getAllProducts, getAllOrders, All; cursors.
Qed.

Lemma tracks_cursors_getByID (e : Entity) (id : string) : tracks_cursors (getByID e id).
Proof. rewrite getByID_unfold. unfold getByID_generic, FindOne_Decode. cursors. Qed.

Lemma tracks_cursors_route (req : Request) : tracks_cursors (route req).
Proof.
  destruct req; simpl.
  - apply tracks_cursors_listFields.
  - apply (tracks_cursors_getAll Customer).
  - apply (tracks_cursors_getByID Customer).
  - apply (tracks_cursors_getAll Product).
  - apply (tracks_cursors_getByID Product).
  - apply (tracks_cursors_getAll Order).
  - apply (tracks_cursors_getByID Order).
Qed.

(** X4.  Whatever the request and whatever fails, when the handler has
    returned every cursor it opened has been closed, the latest first,
    after everything else the handler did: the log is the handler's own
    calls, none of them a close, followed by one close for each [Find]
    that succeeded, in reverse order. *)
Theorem serve_closes_cursors (req : Request) (w : World) :
  ∃ new,
    calls (serve req w).2
    = calls w ++ new
      ++ (Close_call <$> reverse (opened (fault w) (length (calls w)) new))
      ++ defers w
    ∧ forallb (λ c, negb (is_Close c)) new = true
    ∧ defers (serve req w).2 = [].
Proof.
  destruct (tracks_cursors_route req w) as (new & Hc & _ & Hn & Hd).
  exists new. unfold serve, run_handler.
  destruct (route req w) as [[r|r] w']; simpl in *;
    by rewrite Hc, Hd, <- !app_assoc.
Qed.

Example serve_closes_cursors_sample :
  calls (serve GET_fields
           (init_world sample_db (fault_at 4 (ErrDriver "connection reset")) in_order)).2
  = [ListCollectionNames_call; Find_call "customers"; Next_call "customers";
     Decode_call "customers"; Find_call "products"; Close_call "customers"].
Proof. vm_compute. reflexivity. Qed.

(** ** The list handlers: documents and errors *)


Lemma getAll_error_500_aux (e : Entity) (w : World) (err : error) :
  fault w (length (calls w)) = Some err
  ∨ (fault w (length (calls w)) = None ∧ fault w (S (length (calls w))) = Some err) →
  (run_handler (getAll e) w).1 = SendString 500 (Error err).
Proof.
  assert (length (calls w ++ [Find_call (collection_of e)])
          = S (length (calls w))) as Hlen.
  { rewrite length_app. simpl. lia. }
  intros [H0 | [H0 H1]];
    destruct e; unfold run_handler, getAll, getAllCustomers, getAllProducts, getAllOrders,
      Find, All, Defer, driver_call, mbind, M_bind; simpl in *;
      rewrite H0; simpl; rewrite ?Hlen, ?H1; done.
Qed.

(** X6.  When [Find] fails, or [Find] succeeds and [cursor.All] fails, a
    list handler responds 500 and the body is the text of that error. *)
Theorem getAll_error_500 (e : Entity) (w : World) (err : error) :
  fault w (length (calls w)) = Some err
  ∨ (fault w (length (calls w)) = None ∧ fault w (S (length (calls w))) = Some err) →
  (run_handler (getAll e) w).1 = SendString 500 (Error err).
Proof. apply getAll_error_500_aux. Qed.

Lemma getAll_error_500_witness :
  (run_handler (getAll Order)
     (init_world sample_db (fault_at 1 (ErrDriver "cursor lost")) in_order)).1
  = SendString 500 "cursor lost".
Proof.
  apply (getAll_error_500 Order
           (init_world sample_db (fault_at 1 (ErrDriver "cursor lost")) in_order)
           (ErrDriver "cursor lost")).
  right. split; reflexivity.
Defined.

(** ** The statuses a request can get *)

Lemma listFields_result (w : World) :
  match (listFields w).1 with
  | inl r => ∃ err, r = SendString 500 (Error err)
  | inr r => ∃ fields, r = JSON (json_fields fields)
  end.
Proof.
  destruct (stops_at_error_listFields w) as (_ & _ & Hret).
  destruct (listFields w).1 as [r|r] eqn:Hrun.
  - destruct (Hret r eq_refl) as (_ & err & _ & ->). by exists err.
  - revert Hrun. unfold listFields, ListCollectionNames, driver_call, mbind, M_bind.
    destruct (fault w (length (calls w))); [done|].
    destruct (for_each _ _ _ _) as [[r'|fields] w']; [done|].
    simpl. intros [= <-]. by exists fields.
Qed.

Lemma getAll_status (e : Entity) (w : World) :
  status (run_handler (getAll e) w).1 = 200%nat
  ∨ status (run_handler (getAll e) w).1 = 500%nat.
Proof.
  destruct e; unfold run_handler, getAll, getAllCustomers, getAllProducts, getAllOrders,
    Find, All, Defer, driver_call, mbind, M_bind; simpl;
    (destruct (fault w (length (calls w))); simpl; [by right|]);
    (destruct (fault w _); simpl; [by right|]);
    destruct (documents w _); by left.
Qed.

Lemma getByID_status (e : Entity) (id : string) (w : World) :
  status (run_handler (getByID e id) w).1 ∈ [200; 400; 404; 500]%nat.
Proof.
  rewrite getByID_unfold.
  unfold run_handler, getByID_generic, FindOne_Decode, driver_call, mbind, M_bind.
  destruct (ObjectIDFromHex id); simpl; [|set_solver].
  destruct (fault w (length (calls w))) as [err|].
  - destruct (decide (err = ErrNoDocuments)); simpl; set_solver.
  - destruct (List.find _ _); simpl; set_solver.
Qed.

(** X7.  The only statuses the service answers with are 200, 400, 404
    and 500; the listing of fields and the three list endpoints answer
    with 200 or 500 only. *)
Theorem serve_status (req : Request) (w : World) :
  status (serve req w).1 ∈ [200; 400; 404; 500]%nat
  ∧ match req with
    | GET_fields | GET_customers | GET_products | GET_orders =>
        status (serve req w).1 = 200%nat ∨ status (serve req w).1 = 500%nat
    | _ => True
    end.
Proof.
  assert (∀ n : nat, n = 200%nat ∨ n = 500%nat → n ∈ [200; 400; 404; 500]%nat) as Hin
    by (intros n [-> | ->]; set_solver).
  assert (status (run_handler listFields w).1 = 200%nat
          ∨ status (run_handler listFields w).1 = 500%nat) as Hfields.
  { pose proof (listFields_result w) as H. unfold run_handler.
    destruct (listFields w) as [[r|r] w']; simpl in *.
    - destruct H as [err ->]. by right.
    - destruct H as [fields ->]. by left. }
  destruct req; unfold serve; simpl; (split; [|try done]).
  - by apply Hin.
  - apply Hin, (getAll_status Customer).
  - apply (getAll_status Customer).
  - apply (getByID_status Customer).
  - apply Hin, (getAll_status Product).
  - apply (getAll_status Product).
  - apply (getByID_status Product).
  - apply Hin, (getAll_status Order).
  - apply (getAll_status Order).
  - apply (getByID_status Order).
Qed.

(** ** listFields samples one document *)

Lemma first_fields_first_documents (w : World) (c : string) :
  first_fields w c = default [] (field_names <$> first_documents (db w) !! c).
Proof.
  unfold first_fields, documents, first_documents. rewrite lookup_omap.
  by destruct (db w !! c) as [[|d ds]|].
Qed.

Lemma listed_same_listing (w1 w2 : World) (f1 f2 : gmap string (list string)) :
  (∀ c, first_fields w1 c = first_fields w2 c) →
  (∀ c, listed (first_fields w1 c) (f1 !! c)) →
  (∀ c, listed (first_fields w2 c) (f2 !! c)) →
  same_listing f1 f2.
Proof.
  intros Hsame H1 H2 c. specialize (H1 c). specialize (H2 c).
  rewrite (Hsame c) in H1. unfold listed in *.
  destruct (f1 !! c) as [k1|], (f2 !! c) as [k2|].
  - destruct H1 as [_ ->], H2 as [_ ->]. done.
  - destruct H1 as [Hne Hperm]. rewrite H2 in Hperm. by apply Permutation_nil_r in Hperm.
  - destruct H2 as [Hne Hperm]. rewrite H1 in Hperm. by apply Permutation_nil_r in Hperm.
  - done.
Qed.

(** X8.  The listing of fields looks at the first document of each
    collection and at nothing else: two databases with the same first
    documents, the driver answering, get 200 responses whose listings
    have the same collections and the same names up to order, whatever
    other documents the collections hold and whether or not a collection
    without documents exists. *)
Theorem listFields_first_document_only (w1 w2 : World) :
  no_faults w1 → no_faults w2 →
  first_documents (db w1) = first_documents (db w2) →
  ∃ f1 f2, (run_handler listFields w1).1 = {| status := 200; body := json_fields f1 |}
           ∧ (run_handler listFields w2).1 = {| status := 200; body := json_fields f2 |}
           ∧ same_listing f1 f2.
Proof.
  intros Hnf1 Hnf2 Hfirst.
  destruct (listFields_run w1 Hnf1) as (f1 & Hr1 & Hl1).
  destruct (listFields_run w2 Hnf2) as (f2 & Hr2 & Hl2).
  exists f1, f2. split; [done|]. split; [done|].
  apply (listed_same_listing w1 w2); [|done|done].
  intros c. by rewrite !first_fields_first_documents, Hfirst.
Qed.

Lemma listFields_first_document_only_witness :
  ∃ f1 f2,
    (run_handler listFields (init_world sample_db no_fault in_order)).1
    = {| status := 200; body := json_fields f1 |}
    ∧ (run_handler listFields (init_world sample_db2 no_fault from_second)).1
      = {| status := 200; body := json_fields f2 |}
    ∧ same_listing f1 f2.
Proof.
  apply (listFields_first_document_only
           (init_world sample_db no_fault in_order)
           (init_world sample_db2 no_fault from_second)).
  - intros n. reflexivity.
  - intros n. reflexivity.
  - vm_compute. reflexivity.
Defined.

(** ** listFields returns early on an error only *)

(** X9.  Whenever listFields returns before the end of its loop, the
    response is a 500 whose body is the text of the error of the last
    driver call it made: the request ends at the first error the handler
    notices and nothing is called after it but the deferred closes. *)
Theorem listFields_early_return (w : World) (r : Response) :
  (listFields w).1 = inl r →
  ∃ err, fault w (pred (length (calls (listFields w).2))) = Some err
         ∧ r = SendString 500 (Error err)
         ∧ (length (calls w) < length (calls (listFields w).2))%nat
         ∧ calls (run_handler listFields w).2
           = calls (listFields w).2 ++ defers (listFields w).2.
Proof.
  intros Hr. destruct (stops_at_error_listFields w) as (_ & _ & Hret).
  destruct (Hret r Hr) as (Hlt & err & Herr & ->).
  exists err. split; [done|]. split; [done|]. split; [done|].
  unfold run_handler. by destruct (listFields w) as [[r'|r'] w'].
Qed.

Lemma listFields_early_return_witness :
  ∃ err, fault_at 4 (ErrDriver "connection reset") 4 = Some err
         ∧ SendString 500 "connection reset" = SendString 500 (Error err).
Proof.
  destruct (listFields_early_return
              (init_world sample_db (fault_at 4 (ErrDriver "connection reset")) in_order)
              (SendString 500 "connection reset") eq_refl)
    as (err & Herr & Hr & _).
  exists err. split; [exact Herr | exact Hr].
Defined.

(** ** A handler reads its own collection *)

Lemma getAll_response (e : Entity) (w : World) :
  (run_handler (getAll e) w).1
  = match fault w (length (calls w)) with
    | Some err => SendString 500 (Error err)
    | None =>
        match fault w (S (length (calls w))) with
        | Some err => SendString 500 (Error err)
        | None => JSON (json_slice (match documents w (collection_of e) with
                                    | [] => None
                                    | ds => Some ds
                                    end))
        end
    end.
Proof.
  destruct (fault w (length (calls w))) as [err|] eqn:H0.
  - apply getAll_error_500_aux. by left.
  - destruct (fault w (S (length (calls w)))) as [err|] eqn:H1.
    + apply getAll_error_500_aux. by right.
    + by apply getAll_run.
Qed.

(** X10.  The response of a list handler and of a Get-by-ID handler
    depends on the documents of the handler's own collection only: in
    two databases that agree on that collection, the driver giving the
    same answers, the responses are the same. *)
Theorem handlers_read_own_collection (e : Entity) (w1 w2 : World) :
  documents w1 (collection_of e) = documents w2 (collection_of e) →
  fault w1 = fault w2 →
  length (calls w1) = length (calls w2) →
  (run_handler (getAll e) w1).1 = (run_handler (getAll e) w2).1
  ∧ ∀ id, (run_handler (getByID e id) w1).1 = (run_handler (getByID e id) w2).1.
Proof.
  intros Hdocs Hfault Hlen. split.
  - by rewrite !getAll_response, Hfault, Hlen, Hdocs.
  - intros id. rewrite !getByID_unfold.
    unfold run_handler, getByID_generic, FindOne_Decode, driver_call, mbind, M_bind.
    destruct (ObjectIDFromHex id); [|done].
    rewrite Hfault, Hlen, Hdocs.
    destruct (fault w2 (length (calls w2))) as [err|].
    + by destruct (decide (err = ErrNoDocuments)).
    + by destruct (List.find _ _).
Qed.

Lemma handlers_read_own_collection_witness :
  (run_handler (getAll Product) (init_world sample_db no_fault in_order)).1
  = (run_handler (getAll Product) (init_world sample_db2 no_fault in_order)).1.
Proof.
  apply (handlers_read_own_collection Product
           (init_world sample_db no_fault in_order)
           (init_world sample_db2 no_fault in_order)).
  - reflexivity.
  - reflexivity.
  - reflexivity.
Defined.

(** ** Startup: what [main] does before it serves *)

(** X11.  The port is bound only on a verified connection: when [main]
    reaches [app.Listen], the logger was built, the file was read, the
    URL is not empty, and the connection to that URL and the ping both
    succeeded before; the address is ":8090". *)
Theorem main_binds_after_ping (s : Startup) :
  existsb binds_port (events (main s)) = true →
  zap_ok s = true
  ∧ connect_error s = None
  ∧ ping_error s = None
  ∧ ∃ env tl, LoadEnv s = Some env
              ∧ GetMongoDB_URL env ≠ ""
              ∧ events (main s)
                = Ev_Connect (GetMongoDB_URL env) :: Ev_Ping :: Ev_Listen ":8090" :: tl.
Proof.
  unfold main. destruct (zap_ok s); simpl; [|done].
  destruct (LoadEnv s) as [env|]; simpl; [|done].
  destruct (decide (GetMongoDB_URL env = "")) as [|Hurl]; simpl; [done|].
  destruct (connect_error s); simpl; [done|].
  destruct (ping_error s); simpl; [done|].
  intros _. repeat split.
  destruct (listen_error s); simpl; eauto.
Qed.

Lemma main_binds_after_ping_witness :
  ∃ env tl, LoadEnv (good_startup "mongodb://db") = Some env
            ∧ GetMongoDB_URL env ≠ ""
            ∧ events (main (good_startup "mongodb://db"))
              = Ev_Connect (GetMongoDB_URL env) :: Ev_Ping :: Ev_Listen ":8090" :: tl.
Proof.
  apply (main_binds_after_ping (good_startup "mongodb://db")).
  reflexivity.
Defined.


Example main_unreachable_database :
  main (unreachable_startup "mongodb://db")
  = {| events := [Ev_Connect "mongodb://db"; Ev_Ping]; exit_status := 1 |}.
Proof. vm_compute. reflexivity. Qed.

(** X13.  The second program is the startup of the server: whenever the
    server ends without reaching [app.Listen], the second program, run
    in the same conditions, goes through the same events and exits with
    the same status. *)
Theorem main_ping_is_startup (s : Startup) :
  existsb binds_port (events (main s)) = false → main_ping s = main s.
Proof.
  unfold main, main_ping. destruct (zap_ok s); simpl; [|done].
  destruct (LoadEnv s) as [env|]; simpl; [|done].
  destruct (decide (GetMongoDB_URL env = "")); simpl; [done|].
  destruct (connect_error s); simpl; [done|].
  destruct (ping_error s); simpl; [done|].
  by destruct (listen_error s).
Qed.

Lemma main_ping_is_startup_witness :
  main_ping (unreachable_startup "mongodb://db") = main (unreachable_startup "mongodb://db").
Proof.
  apply (main_ping_is_startup (unreachable_startup "mongodb://db")).
  reflexivity.
Defined.

(** ** Which failures listFields lets go by *)

Lemma notices_errors_ret {A} (a : A) : notices_errors (mret a : M A).
Proof. intros w. exists []. simpl. rewrite app_nil_r. repeat split. intros; done. Qed.

Lemma notices_errors_Return {A} (r : Response) : notices_errors (Return r : M A).
Proof. intros w. exists []. simpl. rewrite app_nil_r. repeat split. intros; done. Qed.

Lemma notices_errors_Defer (c : DbCall) : notices_errors (Defer c).
Proof. intros w. exists []. simpl. rewrite app_nil_r. repeat split. intros; done. Qed.

Lemma notices_errors_range_keys {A} (m : gmap string A) : notices_errors (range_keys m).
Proof. intros w. exists []. simpl. rewrite app_nil_r. repeat split. intros; done. Qed.

Lemma notices_errors_Next (cursor : Cursor) : notices_errors (Next cursor).
Proof.
  intros w. exists [Next_call (cur_coll cursor)]. unfold Next.
  assert (∀ i c, [Next_call (cur_coll cursor)] !! i = Some c → is_Next c = true) as Hnext.
  { intros [|i] c; simpl; [by intros [= <-] | done]. }
  destruct (fault w _); [|destruct (cur_batch cursor)]; simpl;
    (split; [done|]; split; [done|]; intros a _ i c Hi _; by apply (Hnext i c)).
Qed.

Lemma notices_errors_bind {A B} (m : M A) (k : A → M B) :
  notices_errors m → (∀ a, notices_errors (k a)) → notices_errors (m ≫= k).
Proof.
  intros Hm Hk w. unfold mbind, M_bind.
  destruct (Hm w) as (new1 & Hc1 & Hf1 & Hn1).
  destruct (m w) as [[r|a] w1]; simpl in *.
  { exists new1. repeat split; [done..|]. intros; done. }
  destruct (Hk a w1) as (new2 & Hc2 & Hf2 & Hn2).
  exists (new1 ++ new2). split; [by rewrite Hc2, Hc1, app_assoc|].
  split; [congruence|].
  intros b Hb i c Hi Hfail.
  destruct (decide (i < length new1)%nat) as [Hlt|Hge].
  - rewrite lookup_app_l in Hi by done. by apply (Hn1 a eq_refl i c).
  - rewrite lookup_app_r in Hi by lia.
    apply (Hn2 b Hb (i - length new1)%nat c Hi).
    rewrite Hf1, Hc1, length_app.
    by replace (length (calls w) + length new1 + (i - length new1))%nat
      with (length (calls w) + i)%nat by lia.
Qed.

(** A driver call followed by the check of its error. *)
Lemma notices_errors_checked {A B} (c : DbCall) (answer : World → result A) (k : A → M B) :
  (∀ a, notices_errors (k a)) →
  notices_errors (r ← driver_call c answer;
                  match r with
                  | Err err => Return (SendString 500 (Error err))
                  | Ok a => k a
                  end).
Proof.
  intros Hk w. unfold driver_call, mbind, M_bind.
  destruct (fault w (length (calls w))) as [err|] eqn:Hfault.
  { exists [c]. repeat split. intros; done. }
  destruct (answer w) as [a|err].
  2: { exists [c]. repeat split. intros; done. }
  destruct (Hk a (record_call c w)) as (new & Hc & Hf & Hn). simpl in *.
  exists (c :: new). split; [by rewrite Hc, <- app_assoc|]. split; [done|].
  intros b Hb [|i] c' Hi Hfail; simpl in Hi.
  - rewrite Nat.add_0_r, Hfault in Hfail. by destruct Hfail.
  - apply (Hn b Hb i c' Hi). rewrite length_app. simpl.
    by replace (length (calls w) + 1 + i)%nat with (length (calls w) + S i)%nat by lia.
Qed.

Lemma notices_errors_for_each {A S} (l : list A) (body : S → A → M S) :
  (∀ s x, notices_errors (body s x)) → ∀ s, notices_errors (for_each l body s).
Proof.
  intros Hbody. induction l as [|x l IH]; intros s; simpl.
  - apply notices_errors_ret.
  - apply notices_errors_bind; [apply Hbody | apply IH].
Qed.

Lemma notices_errors_listFields_body (fields : gmap string (list string))
    (collection : string) :
  notices_errors (listFields_body fields collection).
Proof.
  unfold listFields_body, Find. apply notices_errors_checked. intros cursor.
  apply notices_errors_bind; [apply notices_errors_Defer|]. intros _.
  apply notices_errors_bind; [apply notices_errors_Next|]. intros [[|] cursor'].
  - unfold Decode. apply notices_errors_checked. intros result.
    apply notices_errors_bind; [apply notices_errors_range_keys|].
    intros keys. apply notices_errors_ret.
  - apply notices_errors_ret.
Qed.

Lemma notices_errors_listFields : notices_errors listFields.
Proof.
  unfold listFields, ListCollectionNames. apply notices_errors_checked.
  intros collections. apply notices_errors_bind.
  - apply notices_errors_for_each, notices_errors_listFields_body.
  - intros fields. apply notices_errors_ret.
Qed.

(** X14.  When listFields runs to its end and answers with the listing,
    no call to the enumeration, to [Find] or to [Decode] has failed
    during the run: every driver call that failed was a [cursor.Next]. *)
Theorem listFields_200_only_Next_failed (w : World) (r : Response) (i : nat) (c : DbCall) :
  (listFields w).1 = inr r →
  calls (listFields w).2 !! (length (calls w) + i)%nat = Some c →
  is_Some (fault w (length (calls w) + i)) →
  is_Next c = true.
Proof.
  intros Hr Hi Hfail.
  destruct (notices_errors_listFields w) as (new & Hc & _ & Hn).
  apply (Hn r Hr i c); [|done].
  rewrite Hc, lookup_app_r in Hi by lia.
  by replace (length (calls w) + i - length (calls w))%nat with i in Hi by lia.
Qed.

Lemma listFields_200_only_Next_failed_witness :
  is_Next (Next_call "customers") = true.
Proof.
  apply (listFields_200_only_Next_failed
           (init_world sample_db (fault_at 2 (ErrDriver "connection reset")) in_order)
           (JSON "{}") 2 (Next_call "customers")).
  - reflexivity.
  - reflexivity.
  - exists (ErrDriver "connection reset"). reflexivity.
Defined.

(** ** Get-by-ID: which status means what *)



(** ** listFields on a database without documents *)

(** X16.  When no collection has a document, whether or not there are
    collections, and the driver answers, listFields responds 200 with
    the empty JSON object. *)
Theorem listFields_no_documents (w : World) :
  no_faults w →
  first_documents (db w) = ∅ →
  (run_handler listFields w).1 = {| status := 200; body := "{}" |}.
Proof.
  intros Hnf Hnone.
  destruct (listFields_run w Hnf) as (fields & -> & Hlisted).
  assert (fields = ∅) as ->; [|done].
  apply map_eq. intros c. rewrite lookup_empty.
  specialize (Hlisted c).
  rewrite first_fields_first_documents, Hnone, lookup_empty in Hlisted.
  destruct (fields !! c) as [ks|]; [|done].
  destruct Hlisted as [Hne Hperm]. by apply Permutation_nil_r in Hperm.
Qed.

Lemma listFields_no_documents_witness :
  (run_handler listFields
     (init_world {[ "orders" := []; "products" := [] ]} no_fault in_order)).1
  = {| status := 200; body := "{}" |}.
Proof.
  apply (listFields_no_documents
           (init_world {[ "orders" := []; "products" := [] ]} no_fault in_order)).
  - intros n. reflexivity.
  - vm_compute. reflexivity.
Defined.
